(** * Scoped configuration paths, permissions, SQL storage and the change bus

    A shallow embedding of the configuration core of the repository:
    - package [path]   (New, Path.IsValid, Path.FQ, Path.Level, SplitFQ),
    - package [scope]  (Perm: MakePerm, Set, Has, Top and its textual forms),
    - package [ccd]    (DBStorage.Set and DBStorage.Value),
    - package [cfgpath] (PathSlice: Contains and Sort),
    - package [config] (pubSub: Subscribe, Unsubscribe, publish, Close).

    Go values are modelled as follows.  A [[]byte] is a [list ascii]; an
    [int], [int64] or [uint] is a [Z] (lengths and counters never come near
    the 64-bit limits in the functions below, the one range check that the
    code relies on, [strconv.ParseInt], is written out); a pair of results
    [(T, error)] is a pair [T * option error] where [None] is Go's [nil]
    error; a Go map is a [gmap]. *)

From Stdlib Require Import ZArith Ascii String List Lia Sorted.
From Stdlib Require Import DecimalString DecimalZ DecimalPos DecimalFacts.
From stdpp Require Import base tactics option list gmap fin_maps.

Local Open Scope Z_scope.

(** ** Bytes and byte slices *)

Definition bytes := list ascii.

Definition b (s : string) : bytes := list_ascii_of_string s.

Definition byte_val (c : ascii) : Z := Z.of_N (N_of_ascii c).

Definition len {A} (l : list A) : Z := Z.of_nat (length l).

(** [s[:n]] and [s[n:]] for in-range [n]. *)
Definition slice_to {A} (s : list A) (n : Z) : list A := take (Z.to_nat n) s.
Definition slice_from {A} (s : list A) (n : Z) : list A := drop (Z.to_nat n) s.

(** [bytes.IndexRune(s, r)] for an ASCII rune: index of the first byte equal
    to [r], or -1. *)
Fixpoint IndexRune (s : bytes) (r : ascii) : Z :=
  match s with
  | [] => -1
  | c :: s' =>
      if Ascii.eqb c r then 0
      else let i := IndexRune s' r in if i =? -1 then -1 else i + 1
  end.

(** [bytes.Count(s, sep)] for a one-byte separator. *)
Fixpoint Count (s : bytes) (sep : ascii) : Z :=
  match s with
  | [] => 0
  | c :: s' => (if Ascii.eqb c sep then 1 else 0) + Count s' sep
  end.

(** [utf8.Valid]: well-formed UTF-8 (no overlong forms, no surrogates,
    nothing above U+10FFFF). *)
Definition cont (c : ascii) : bool := (128 <=? byte_val c) && (byte_val c <=? 191).
Definition between (lo hi : Z) (c : ascii) : bool :=
  (lo <=? byte_val c) && (byte_val c <=? hi).

Fixpoint utf8_Valid (s : bytes) : bool :=
  match s with
  | [] => true
  | c0 :: s1 =>
      if byte_val c0 <? 128 then utf8_Valid s1
      else if between 194 223 c0 then
        match s1 with
        | c1 :: s2 => cont c1 && utf8_Valid s2
        | _ => false
        end
      else if between 224 239 c0 then
        match s1 with
        | c1 :: c2 :: s3 =>
            (if byte_val c0 =? 224 then between 160 191 c1
             else if byte_val c0 =? 237 then between 128 159 c1
             else cont c1) && cont c2 && utf8_Valid s3
        | _ => false
        end
      else if between 240 244 c0 then
        match s1 with
        | c1 :: c2 :: c3 :: s4 =>
            (if byte_val c0 =? 240 then between 144 191 c1
             else if byte_val c0 =? 244 then between 128 143 c1
             else cont c1) && cont c2 && cont c3 && utf8_Valid s4
        | _ => false
        end
      else false
  end.

(** ** Errors

    An error is either a plain one ([errors.New], [fmt.Errorf]), one that
    carries a kind ([errors.NotFound.Newf], [errors.NewNotFoundf]) or one
    that wraps a cause with a message ([errors.Wrapf]); a kind matches an
    error when the innermost cause carries it. *)

Inductive Kind :=
| NotFound | NotValid | NotSupported | Empty | BadEncoding | AlreadyClosed | Fatal.

Inductive error :=
| ErrNew (msg : string)
| ErrKind (k : Kind) (msg : string)
| ErrWrap (cause : error) (msg : string).

Definition Kind_eqb (k1 k2 : Kind) : bool :=
  match k1, k2 with
  | NotFound, NotFound | NotValid, NotValid | NotSupported, NotSupported
  | Empty, Empty | BadEncoding, BadEncoding | AlreadyClosed, AlreadyClosed
  | Fatal, Fatal => true
  | _, _ => false
  end.

Fixpoint Match (k : Kind) (e : error) : bool :=
  match e with
  | ErrNew _ => false
  | ErrKind k' _ => Kind_eqb k k'
  | ErrWrap c _ => Match k c
  end.

(** ** Package scope: the scope kinds *)

Module scope.

(** Modelled from the spec: the declaration of the scope kinds is not among
    the sources.  The spec names the kinds Default, Website, Group and Store;
    Go's [Type] is spelled [Typ] here.  The numbering is the one under which
    TestPermTop of the sources holds ([Perm(44).Top()] is [Website], so
    Website is bit 2 and Store is neither bit 2, 3 nor 5), with the zero
    value standing for an absent scope. *)
Inductive Typ := Absent | Default | Website | Group | Store.

(** Modelled from the spec: the number of a kind, see [Typ]. *)
Definition Type_val (t : Typ) : Z :=
  match t with
  | Absent => 0 | Default => 1 | Website => 2 | Group => 3 | Store => 4
  end.

(** Modelled from the spec: the bound of the loops over the kinds, one
    above the last kind. *)
Definition maxType : Z := 5.

(** Modelled from the spec: the conversion [Type(i)], see [Typ]. *)
Definition Type_of (i : Z) : option Typ :=
  if i =? 0 then Some Absent else if i =? 1 then Some Default
  else if i =? 2 then Some Website else if i =? 3 then Some Group
  else if i =? 4 then Some Store else None.

(** Modelled from the spec: [Type.String] is not among the sources; the
    names are those of the spec and of TestPermMarshalJSONAll. *)
Definition Type_String (i : Z) : bytes :=
  match Type_of i with
  | Some Absent => b "Absent"
  | Some Default => b "Default"
  | Some Website => b "Website"
  | Some Group => b "Group"
  | Some Store => b "Store"
  | None => b "Type(?)"
  end.

Global Instance Type_eq_dec : EqDecision Typ.
Proof. solve_decision. Defined.

(** The older name of the same enumeration, as package [path] uses it. *)
Abbreviation Scope := Typ.
Abbreviation DefaultID := Default.
Abbreviation WebsiteID := Website.
Abbreviation GroupID := Group.
Abbreviation StoreID := Store.

(** Modelled from the spec: the textual scopes are not among the sources.
    The spec gives the prefixes default, websites and stores, and folds the
    Group scope into Default. *)
Definition StrDefault : bytes := b "default".

(** Modelled from the spec: the prefix of the Website scope. *)
Definition StrWebsites : bytes := b "websites".

(** Modelled from the spec: the prefix of the Store scope. *)
Definition StrStores : bytes := b "stores".

Definition bytes_eqb (x y : bytes) : bool := bool_decide (x = y).

(** Modelled from the spec: the prefix of a kind; every kind but Website
    and Store has the prefix of Default. *)
Definition FromScope (s : Scope) : bytes :=
  match s with
  | WebsiteID => StrWebsites
  | StoreID => StrStores
  | _ => StrDefault
  end.

(** Modelled from the spec: the kind of a prefix, Default when it is
    unknown. *)
Definition FromBytes (x : bytes) : Scope :=
  if bytes_eqb x StrWebsites then WebsiteID
  else if bytes_eqb x StrStores then StoreID
  else DefaultID.

(** Modelled from the spec: whether the bytes are one of the three
    prefixes. *)
Definition ValidBytes (x : bytes) : bool :=
  bytes_eqb x StrWebsites || bytes_eqb x StrStores || bytes_eqb x StrDefault.

End scope.

(** ** Package strconv: decimal integers *)

Inductive NumError := ErrSyntax | ErrRange.

Definition strconv_error (e : NumError) : error :=
  match e with
  | ErrSyntax => ErrNew "strconv.ParseInt: invalid syntax"
  | ErrRange => ErrNew "strconv.ParseInt: value out of range"
  end.

Definition MaxInt64 : Z := 9223372036854775807.
Definition MinInt64 : Z := -9223372036854775808.

(** [strconv.AppendInt(nil, i, 10)]. *)
Definition AppendInt (i : Z) : bytes :=
  list_ascii_of_string (NilZero.string_of_int (Z.to_int i)).

(** [strconv.ParseInt(s, 10, 64)]: an optional sign, then one or more
    decimal digits; a value outside of int64 is clamped and reported. *)
Definition ParseInt (s : bytes) : Z * option error :=
  match s with
  | [] => (0, Some (strconv_error ErrSyntax))
  | c :: s' =>
      let '(neg, digits) :=
        if Ascii.eqb c "+" then (false, s')
        else if Ascii.eqb c "-" then (true, s')
        else (false, s) in
      match NilZero.uint_of_string (string_of_list_ascii digits) with
      | None => (0, Some (strconv_error ErrSyntax))
      | Some u =>
          let un := Z.of_N (N.of_uint u) in
          if negb neg && (MaxInt64 <? un) then (MaxInt64, Some (strconv_error ErrRange))
          else if neg && (- MinInt64 <? un) then (MinInt64, Some (strconv_error ErrRange))
          else (if neg then - un else un, None)
      end
  end.

(** ** Package path *)

Module path.
Import scope.

Definition Levels : Z := 3.
Definition rSeparator : ascii := "/"%char.
Definition RuneSelf : Z := 128.

Definition ErrRouteEmpty : error := ErrNew "Route is empty".
Definition ErrIncorrectPath : error :=
  ErrNew "Incorrect Path. Either to short or missing path separator.".
Definition ErrRouteInvalidBytes : error :=
  ErrNew "Route contains invalid bytes".
Definition ErrNotAllowed : error :=
  ErrNew "This character is not allowed in Route".
Definition ErrIncorrectFQ : error := ErrNew "Incorrect fully qualified path".
Definition ErrUnsupportedScope : error := ErrNew "Unsupported scope".

Definition Route := bytes.

(** Modelled from the spec: the methods of [Route] are not among the
    sources.  A route is empty when it has no bytes, and [Valid] is the
    encoding check behind ErrRouteInvalidBytes; the spec asks for ASCII only,
    and any route of ASCII bytes passes it. *)
Definition Route_IsEmpty (r : Route) : bool := len r =? 0.

(** Modelled from the spec: [Route.Valid], the check of the encoding. *)
Definition Route_Valid (r : Route) : bool := utf8_Valid r.

(** Modelled from the spec: [Route.Copy], the same bytes in a new slice. *)
Definition Route_Copy (r : Route) : Route := r.

Record Path := mkPath { pRoute : Route; pScope : Scope; pID : Z }.

(** The zero value [Path{}]. *)
Definition Path_zero : Path := mkPath [] Absent 0.

Definition Bind (p : Path) (s : Scope) (id : Z) : Path :=
  mkPath (pRoute p) s id.

Definition StrScope (p : Path) : bytes := FromScope (pScope p).

(** The character class of the loop of [IsValid]: whether the byte is
    allowed, and whether it counts as a separator. *)
Definition classify (r : Z) : bool * bool :=
  if (byte_val "0" <=? r) && (r <=? byte_val "9") then (true, false)
  else if (byte_val "a" <=? r) && (r <=? byte_val "z") then (true, false)
  else if (byte_val "A" <=? r) && (r <=? byte_val "Z") then (true, false)
  else if r =? byte_val "_" then (true, false)
  else if r =? byte_val rSeparator then (true, true)
  else (false, false).

Fixpoint IsValid_loop (rest : Route) (sepCount length : Z) : option error :=
  match rest with
  | [] =>
      if negb (sepCount =? Levels - 1) || (length <? 8)
      then Some ErrIncorrectPath else None
  | c :: rest' =>
      if byte_val c <? RuneSelf then
        let '(ok, sep) := classify (byte_val c) in
        if negb ok then Some ErrNotAllowed
        else IsValid_loop rest' (if sep then sepCount + 1 else sepCount) (length + 1)
      else Some ErrNotAllowed
  end.

Definition IsValid (p : Path) : option error :=
  if Route_IsEmpty (pRoute p) then Some ErrRouteEmpty
  else if negb (Route_Valid (pRoute p)) then Some ErrRouteInvalidBytes
  else IsValid_loop (pRoute p) 0 0.

(** [New]: a validated path in the default scope. *)
Definition New (r : Route) : Path * option error :=
  let p := mkPath r DefaultID 0 in
  match IsValid p with
  | Some err => (Path_zero, Some err)
  | None => (p, None)
  end.

Definition FQ (p : Path) : Route * option error :=
  match IsValid p with
  | Some err => ([], Some err)
  | None =>
      let id := if bool_decide (pScope p = DefaultID) && (0 <? pID p)
                then 0 else pID p in
      let buf := StrScope p ++ [rSeparator] in
      let bufRaw := buf ++ AppendInt id in
      (bufRaw ++ [rSeparator] ++ pRoute p, None)
  end.

(** The loop of [Level]; [fuel] bounds the number of iterations and [None]
    is returned only when it runs out. *)
Fixpoint Level_loop (fuel : nat) (r : Route) (level pos i : Z) : option Route :=
  match fuel with
  | O => None
  | S fuel' =>
      if pos <=? len r then
        let sc := IndexRune (slice_from r pos) rSeparator in
        if sc =? -1 then Some (Route_Copy r)
        else
          let pos' := pos + (sc + 1) in
          if i =? level then Some (Route_Copy (slice_to r (pos' - 1)))
          else Level_loop fuel' r level pos' (i + 1)
      else Some (Route_Copy r)
  end.

Definition Level (p : Path) (level : Z) : option (Route * option error) :=
  match IsValid p with
  | Some err => Some ([], Some err)
  | None =>
      let lp := len (pRoute p) in
      if (level <? 0) || (lp <=? level) then Some (Route_Copy (pRoute p), None)
      else if level =? 0 then Some ([], None)
      else
        match Level_loop (S (length (pRoute p))) (pRoute p) level 0 1 with
        | Some r => Some (r, None)
        | None => None
        end
  end.

Definition isFQ (fqPath : Route) : bool := Levels + 1 <=? Count fqPath rSeparator.

Definition SplitFQ (fqPath : Route) : Path * option error :=
  if negb (isFQ fqPath) || negb (Route_Valid fqPath)
  then (Path_zero, Some ErrIncorrectFQ)
  else
    let fi := IndexRune fqPath rSeparator in
    let scopeBytes := slice_to fqPath fi in
    if negb (ValidBytes scopeBytes) then (Path_zero, Some ErrUnsupportedScope)
    else
      let fqPath1 := slice_from fqPath (fi + 1) in
      let fi1 := IndexRune fqPath1 rSeparator in
      let '(scopeID, err) := ParseInt (slice_to fqPath1 fi1) in
      let path := slice_from fqPath1 (fi1 + 1) in
      (mkPath path (FromBytes scopeBytes) scopeID, err).

End path.

(** ** Package scope: permissions *)

Module perm.
Import scope.

(** [Perm] is a uint16 bit set. *)
Definition Perm := Z.
Definition wrap16 (z : Z) : Z := z mod 2 ^ 16.

(** [1 << i] at type [Perm]. *)
Definition bit (i : Z) : Perm := wrap16 (Z.shiftl 1 i).

Definition Set_ (bits : Perm) (scopes : list Typ) : Perm :=
  foldl (fun acc i => Z.lor acc (bit (Type_val i))) bits scopes.

Definition All (bits : Perm) : Perm := Set_ bits [Default; Website; Store].

Definition PermStore : Perm :=
  Z.lor (Z.lor (bit (Type_val Default)) (bit (Type_val Website))) (bit (Type_val Store)).
Definition PermWebsite : Perm :=
  Z.lor (bit (Type_val Default)) (bit (Type_val Website)).
Definition PermDefault : Perm := bit (Type_val Default).
Definition PermStoreReverse : Perm := bit (Type_val Store).
Definition PermWebsiteReverse : Perm :=
  Z.lor (bit (Type_val Store)) (bit (Type_val Website)).

Definition Has (bits : Perm) (s : Typ) : bool :=
  negb (Z.land bits (bit (Type_val s)) =? 0).

Definition Top (bits : Perm) : Typ :=
  if Has bits Store then Store
  else if Has bits Website then Website
  else Default.

(** The range [0 <= i < maxType] of the two loops below. *)
Definition indices : list Z := seqZ 0 maxType.

Definition Human (bits : Perm) : list bytes :=
  foldl (fun ret i =>
           if negb (Z.land bits (bit i) =? 0) then ret ++ [Type_String i] else ret)
        [] indices.

(** [bytes.Buffer.Truncate]: panics ([None]) out of range. *)
Definition Truncate (buf : bytes) (n : Z) : option bytes :=
  if n =? 0 then Some []
  else if (n <? 0) || (len buf <? n) then None
  else Some (slice_to buf n).

(** [Perm.String]; [None] stands for the panic of [Truncate]. *)
Definition String_ (bits : Perm) : option bytes :=
  let buf :=
    foldl (fun buf i =>
             if negb (Z.land bits (bit i) =? 0)
             then (buf ++ Type_String i) ++ [","%char] else buf)
          [] indices in
  Truncate buf (len buf - 1).

Definition dquote : ascii := "034"%char.
Definition nullByte : bytes := b "null".

(** The loop of [MarshalJSON] over [hm], at index [i]. *)
Fixpoint MarshalJSON_loop (buf : bytes) (hm : list bytes) (i lhm : Z) : bytes :=
  match hm with
  | [] => buf
  | h :: hm' =>
      let buf := buf ++ h in
      let buf := if i <? lhm then buf ++ [dquote; ","%char; dquote] else buf in
      MarshalJSON_loop buf hm' (i + 1) lhm
  end.

Definition MarshalJSON (bits : Perm) : bytes * option error :=
  if bits =? 0 then (nullByte, None)
  else
    let buf := ["["%char; dquote] in
    let hm := Human bits in
    let lhm := len hm - 1 in
    let buf := MarshalJSON_loop buf hm 0 lhm in
    (buf ++ [dquote; "]"%char], None).

End perm.

(** ** Package ccd: the SQL table backend *)

Module ccd.
Import scope path.

(** A row of the table core_config_data; a NULL value is [None]. *)
Record row := mkRow {
  r_scope : bytes; r_scope_id : Z; r_path : bytes; r_value : option bytes }.

(** The storage: the rows of the table, and whether the resurrecting read
    statement can be prepared. *)
Record DBStorage := mkDB { table : list row; Read_Stmt : option error }.

Definition sql_ErrNoRows : error := ErrNew "sql: no rows in result set".
Definition errKeyNotFound : error := ErrKind NotFound "[ccd] Key not found".

Definition row_matches (scp : bytes) (id : Z) (pl : bytes) (r : row) : bool :=
  bool_decide (r_scope r = scp) && (r_scope_id r =? id) && bool_decide (r_path r = pl).

(** [stmt.QueryRow(scope, id, path).Scan(&data)]: the value of the first
    selected row, or ErrNoRows when the query selects none. *)
Definition QueryRow_Scan (t : list row) (scp : bytes) (id : Z) (pl : bytes)
  : option bytes * option error :=
  match List.find (row_matches scp id pl) t with
  | Some r => (r_value r, None)
  | None => (None, Some sql_ErrNoRows)
  end.

(** [DBStorage.Value]; the outer [option] is [None] only if [Level] gives no
    result. *)
Definition Value (dbs : DBStorage) (key : Path)
  : option (option bytes * option error) :=
  match Read_Stmt dbs with
  | Some err => Some (None, Some (ErrWrap err "[ccd] Get.Read.Stmt"))
  | None =>
      match Level key (-1) with
      | None => None
      | Some (_, Some err) => Some (None, Some (ErrWrap err "[ccd] Get.key.Level"))
      | Some (pl, None) =>
          let scp := pScope key in
          let id := pID key in
          match QueryRow_Scan (table dbs) (FromScope scp) id pl with
          | (_, Some err) => Some (None, Some (ErrWrap err "[ccd] Get.QueryRow"))
          | (Some data, None) => Some (Some data, None)
          | (None, None) => Some (None, Some errKeyNotFound)
          end
      end
  end.

End ccd.

(** ** Package config: the change bus *)

Module config.
Import scope path.

(** What a panic carries: an error, another value, or nil.  After
    [panic(nil)] the call [recover()] returns nil, as it does when nothing
    panicked (Go before 1.21, for which the repository is written).  And how
    a call ends: it returns, it panics, or it blocks forever on a channel. *)
Inductive panic_value := PanicError (e : error) | PanicOther (v : string) | PanicNil.

Inductive result (A : Type) :=
| Ret (a : A)
| Panic (v : panic_value)
| Block.
Arguments Ret {A} a.
Arguments Panic {A} v.
Arguments Block {A}.

(** A call of [MessageConfig] returns an error or nil, or panics. *)
Inductive outcome := Returns (err : option error) | Panics (v : panic_value).

(** What the code leaves open: the state of the application that the
    receivers read and write, the two hashes of a path (their code is not
    among the sources), and the order in which a [for range] visits a map,
    which may be any order. *)
Class Runtime := {
  World : Type;
  Hash : Path -> Z -> Z * option error;
  Hash32 : Path -> Z;
  range : forall {A}, gmap Z A -> list (Z * A);
  range_perm : forall A (m : gmap Z A), Permutation (range m) (map_to_list m);
}.

Section PubSub.
Context `{RT : Runtime}.

Definition MessageReceiver := Path -> World -> outcome * World.

(** The state threaded through a delivery: the world of the receivers and
    the log of the calls made, each with the subscriber id, the path handed
    over and the way the call ended. *)
Record call := mkCall { c_id : Z; c_path : Path; c_outcome : outcome }.

Record env := mkEnv { world : World; delivered : list call }.

Definition M (A : Type) := env -> result A * env.

Definition ret {A} (a : A) : M A := fun e => (Ret a, e).

Definition bind {A B} (m : M A) (k : A -> M B) : M B :=
  fun e =>
    match m e with
    | (Ret a, e') => k a e'
    | (Panic v, e') => (Panic v, e')
    | (Block, e') => (Block, e')
    end.

Inductive chan := Open | Closed.

(** The goroutine that runs [publish]: not started, parked at the select,
    busy with the path it has read from [pubPath], past the stop case and
    handing nil over [closeErr], or returned. *)
Inductive goroutine :=
| NotStarted | Waiting | Delivering (p : Path) | Acking | Stopped.

(** The bus.  The lock and the logger are left out: every operation below
    runs as a whole, and logging has no effect on the bus.  The last field
    is not a field of the Go struct: it tells where the goroutine started
    for the bus stands. *)
Record pubSub := mkPubSub {
  subMap : gmap Z (gmap Z MessageReceiver);
  subAutoInc : Z;
  pubPath : chan;
  stop : chan;
  closeErr : chan;
  closed : bool;
  publisher : goroutine;
}.

Definition set_subMap (s : pubSub) (m : gmap Z (gmap Z MessageReceiver)) : pubSub :=
  mkPubSub m (subAutoInc s) (pubPath s) (stop s) (closeErr s) (closed s) (publisher s).
Definition set_pubPath (s : pubSub) (c : chan) : pubSub :=
  mkPubSub (subMap s) (subAutoInc s) c (stop s) (closeErr s) (closed s) (publisher s).
Definition set_stop (s : pubSub) (c : chan) : pubSub :=
  mkPubSub (subMap s) (subAutoInc s) (pubPath s) c (closeErr s) (closed s) (publisher s).
Definition set_closeErr (s : pubSub) (c : chan) : pubSub :=
  mkPubSub (subMap s) (subAutoInc s) (pubPath s) (stop s) c (closed s) (publisher s).
Definition set_closed (s : pubSub) (v : bool) : pubSub :=
  mkPubSub (subMap s) (subAutoInc s) (pubPath s) (stop s) (closeErr s) v (publisher s).
Definition set_publisher (s : pubSub) (g : goroutine) : pubSub :=
  mkPubSub (subMap s) (subAutoInc s) (pubPath s) (stop s) (closeErr s) (closed s) g.

Definition newPubSub : pubSub := mkPubSub ∅ 0 Open Open Open false NotStarted.

(** [go s.publish()]. *)
Definition go_publish (s : pubSub) : pubSub := set_publisher s Waiting.

Definition Subscribe (s : pubSub) (p : Path) (mr : MessageReceiver)
  : pubSub * (Z * option error) :=
  if Route_IsEmpty (pRoute p)
  then (s, (0, Some (ErrKind Empty "[config] pubSub.Subscribe")))
  else
    let subscriptionID := subAutoInc s + 1 in
    let hashPath := Hash32 p in
    let bucket := default ∅ (subMap s !! hashPath) in
    (mkPubSub (<[hashPath := <[subscriptionID := mr]> bucket]> (subMap s))
              subscriptionID (pubPath s) (stop s) (closeErr s) (closed s) (publisher s),
     (subscriptionID, None)).

Definition Unsubscribe (s : pubSub) (subscriptionID : Z) : pubSub * option error :=
  match list_find (fun ps : Z * gmap Z MessageReceiver => is_Some (ps.2 !! subscriptionID))
                  (range (subMap s)) with
  | Some (_, (path, subs)) =>
      let subs' := delete subscriptionID subs in
      let m := <[path := subs']> (subMap s) in
      (set_subMap s (if bool_decide (size subs' = 0%nat) then delete path m else m), None)
  | None => (s, None)
  end.

(** The call [sl.MessageConfig(p)], logged. *)
Definition MessageConfig (id : Z) (sl : MessageReceiver) (p : Path) : M (option error) :=
  fun e =>
    let '(o, w) := sl p (world e) in
    let e' := mkEnv w (delivered e ++ [mkCall id p o]) in
    match o with
    | Returns err => (Ret err, e')
    | Panics v => (Panic v, e')
    end.

(** The deferred function recovers a panic and, when [recover()] is not
    nil, overwrites the result; after a panic with nil the result [err] is
    still the nil it was declared with. *)
Definition sendMsgRecoverable (id : Z) (sl : MessageReceiver) (p : Path) : M (option error) :=
  fun e =>
    match MessageConfig id sl p e with
    | (Panic (PanicError recErr), e') => (Ret (Some recErr), e')
    | (Panic (PanicOther v), e') => (Ret (Some (ErrNew v)), e')
    | (Panic PanicNil, e') => (Ret None, e')
    | other => other
    end.

Fixpoint sendMsgs_loop (subs : list (Z * MessageReceiver)) (p : Path) (evict : list Z)
  : M (list Z) :=
  match subs with
  | [] => ret evict
  | (id, sub) :: subs' =>
      bind (sendMsgRecoverable id sub p) (fun err =>
        sendMsgs_loop subs' p (if err is Some _ then evict ++ [id] else evict))
  end.

Definition sendMsgs (subs : gmap Z MessageReceiver) (p : Path) : M (list Z) :=
  sendMsgs_loop (range subs) p [].

Definition readMapAndSend (s : pubSub) (p : Path) (level : Z) : M (list Z) :=
  let '(h, _) := Hash p level in
  bind (match subMap s !! h with
        | Some subs => sendMsgs subs p
        | None => ret []
        end) (fun evict1 =>
  let '(h, _) := Hash p level in
  bind (match subMap s !! h with
        | Some subs => sendMsgs subs p
        | None => ret []
        end) (fun evict2 =>
  ret (evict1 ++ evict2))).

(** The body of the loop of [publish] for a path [p] read from [pubPath]. *)
Definition publish_event (s : pubSub) (p : Path) : M pubSub :=
  if bool_decide (size (subMap s) = 0%nat) then ret s
  else
    bind (readMapAndSend s p 1) (fun e1 =>
    bind (readMapAndSend s p 2) (fun e2 =>
    bind (readMapAndSend s p (-1)) (fun e3 =>
    ret (foldl (fun s e => (Unsubscribe s e).1) s ((e1 ++ e2) ++ e3))))).

(** The goroutine works off the path it holds, if any, and is back at its
    select. *)
Definition deliver (s : pubSub) : M pubSub :=
  match publisher s with
  | Delivering p => bind (publish_event s p) (fun s' => ret (set_publisher s' Waiting))
  | _ => ret s
  end.

(** [sendMsg]: the send on the unbuffered [pubPath] waits for the goroutine
    to be back at its select and hands the path over; the goroutine delivers
    it later. *)
Definition sendMsg (s : pubSub) (p : Path) : M pubSub :=
  if negb (closed s) then
    match pubPath s with
    | Closed => fun e => (Panic (PanicOther "send on closed channel"), e)
    | Open =>
        bind (deliver s) (fun s =>
          match publisher s with
          | Waiting => ret (set_publisher s (Delivering p))
          | _ => fun e => (Block, e)
          end)
    end
  else ret s.

(** Closing a closed channel panics. *)
Definition close_chan (c : chan) : result chan :=
  match c with
  | Open => Ret Closed
  | Closed => Panic (PanicOther "close of closed channel")
  end.

(** [Close] after the send on [stop] was taken by the goroutine at its
    select: the goroutine hands nil over [closeErr] and returns, [Close]
    closes [pubPath] and [stop] and takes the nil. *)
Definition Close_handshake (s : pubSub) : result (option error) * pubSub :=
  let s := set_publisher s Acking in
  match close_chan (pubPath s) with
  | Ret c =>
      let s := set_pubPath s c in
      match close_chan (stop s) with
      | Ret c =>
          let s := set_stop s c in
          match closeErr s, publisher s with
          | Open, Acking => (Ret None, set_publisher s Stopped)
          | Closed, _ => (Ret None, s)
          | Open, _ => (Block, s)
          end
      | Panic v => (Panic v, s)
      | Block => (Block, s)
      end
  | Panic v => (Panic v, s)
  | Block => (Block, s)
  end.

(** The deferred close of [closeErr], which runs when [Close] returns or
    panics. *)
Definition Close_deferred (r : result (option error) * pubSub)
  : result (option error) * pubSub :=
  match r with
  | (Block, s) => (Block, s)
  | (r, s) =>
      match close_chan (closeErr s) with
      | Ret c => (r, set_closeErr s c)
      | Panic v => (Panic v, s)
      | Block => (Block, s)
      end
  end.

(** [Close].  The send on [stop] waits for the goroutine to be back at its
    select, so a path that the goroutine holds is delivered first. *)
Definition Close (sp : option pubSub) (e : env)
  : result (option error) * option pubSub * env :=
  match sp with
  | None => (Ret None, None, e)
  | Some s =>
      if closed s
      then (Ret (Some (ErrKind AlreadyClosed "[config] PubSub Service already closed")),
            Some s, e)
      else
        let s := set_closed s true in
        match stop s with
        | Closed =>
            let '(r, s) := Close_deferred (Panic (PanicOther "send on closed channel"), s) in
            (r, Some s, e)
        | Open =>
            match deliver s e with
            | (Ret s, e) =>
                match publisher s with
                | Waiting =>
                    let '(r, s) := Close_deferred (Close_handshake s) in (r, Some s, e)
                | _ => (Block, Some s, e)
                end
            | (Panic v, e) => (Panic v, Some s, e)
            | (Block, e) => (Block, Some s, e)
            end
        end
  end.

End PubSub.

(** Modelled from the spec: [Path.Hash] and [Path.Hash32] are not among the
    sources; the spec has them as 32-bit FNV-1a over the first [level]
    segments of the route, and over the route. *)
Definition fnv32a (s : bytes) : Z :=
  foldl (fun h c => (Z.lxor h (byte_val c) * 16777619) mod 2 ^ 32) 2166136261 s.

(** Modelled from the spec: [Path.Hash], the hash of the first [level]
    segments and the error of [Level]. *)
Definition Hash_fnv (p : Path) (level : Z) : Z * option error :=
  match Level p level with
  | Some (r, err) => (fnv32a r, err)
  | None => (0, None)
  end.

(** Modelled from the spec: [Path.Hash32], the hash of the route. *)
Definition Hash32_fnv (p : Path) : Z := fnv32a (pRoute p).

End config.

(** ** Vocabulary of the statements *)

Module spec.
Import scope path config.

(** The segments of a route: [bytes.Split(r, "/")], and its inverse. *)
Fixpoint split_sep (r : bytes) : list bytes :=
  match r with
  | [] => [[]]
  | c :: r' =>
      if Ascii.eqb c rSeparator then [] :: split_sep r'
      else match split_sep r' with
           | s :: l => (c :: s) :: l
           | [] => [[c]]
           end
  end.

Fixpoint join_sep (l : list bytes) : bytes :=
  match l with
  | [] => []
  | s :: l' =>
      match l' with
      | [] => s
      | _ => s ++ rSeparator :: join_sep l'
      end
  end.

(** The first [n] segments of a route, joined again. *)
Definition first_segments (n : nat) (r : bytes) : bytes :=
  join_sep (take n (split_sep r)).

(** A byte that [IsValid] lets through: ASCII, and a letter, a digit, an
    underscore or the separator. *)
Definition allowed (c : ascii) : bool :=
  (byte_val c <? RuneSelf) && (classify (byte_val c)).1.

(** The Route invariants of the spec. *)
Definition route_invariants (r : bytes) : Prop :=
  r ≠ [] ∧ Count r rSeparator = Levels - 1 ∧
  Forall (fun seg : bytes => 2 <= len seg) (split_sep r) ∧
  8 <= len r ∧ Forall (fun c => byte_val c < 128) r.

(** A scope id: one of the kinds that has a textual prefix, with an int64
    id. *)
Definition valid_ScopeID (s : Scope) (id : Z) : Prop :=
  (s = Default \/ s = Website \/ s = Store) /\ MinInt64 <= id <= MaxInt64.

(** The canonical form of a path: the id of the Default scope is 0. *)
Definition canonical (p : Path) : Path :=
  if bool_decide (pScope p = Default) then mkPath (pRoute p) Default 0 else p.

(** A decimal digit. *)
Definition is_digit (c : ascii) : bool := (48 <=? byte_val c) && (byte_val c <=? 57).

(** The form of a decimal integer: an optional sign and one or more
    digits. *)
Definition integer_syntax (s : bytes) : bool :=
  match s with
  | [] => false
  | c :: s' =>
      let digits := if Ascii.eqb c "+" || Ascii.eqb c "-" then s' else s in
      negb (bool_decide (digits = [])) && forallb is_digit digits
  end.

(** The scope kinds in the order of the hierarchy, the names of those set
    in a permission, and a list of names joined by a separator. *)
Definition all_types : list Typ := [Absent; Default; Website; Group; Store].

Definition set_names (bits : perm.Perm) : list bytes :=
  map (fun t => Type_String (Type_val t)) (List.filter (perm.Has bits) all_types).

Fixpoint join_with (sep : bytes) (l : list bytes) : bytes :=
  match l with
  | [] => []
  | s :: l' =>
      match l' with
      | [] => s
      | _ => s ++ sep ++ join_with sep l'
      end
  end.

Definition quoted (s : bytes) : bytes := perm.dquote :: s ++ [perm.dquote].

(** How often subscriber [id] was called in a log of deliveries. *)
Definition deliveries (id : Z) (log : list call) : nat :=
  length (List.filter (fun c => c_id c =? id) log).

(** A call that ended with an error or a panic, and the ids of the
    subscribers of such calls in a log. *)
Definition is_failure (o : outcome) : bool :=
  match o with
  | Returns None => false
  | _ => true
  end.

Definition failed (log : list call) : list Z :=
  map c_id (List.filter (fun c => is_failure (c_outcome c)) log).

(** A call whose failure [sendMsgRecoverable] reports to its caller: one
    that returned an error, or panicked with a value other than nil; and the
    ids of the subscribers of such calls in a log. *)
Definition is_reported (o : outcome) : bool :=
  match o with
  | Returns (Some _) | Panics (PanicError _) | Panics (PanicOther _) => true
  | Returns None | Panics PanicNil => false
  end.

Definition evicted (log : list call) : list Z :=
  map c_id (List.filter (fun c => is_reported (c_outcome c)) log).

Section Subscriptions.
Context `{RT : Runtime}.

(** The receiver of subscriber [id] in the bucket of the topic [h]. *)
Definition lookup_sub (s : pubSub) (h id : Z) : option MessageReceiver :=
  subMap s !! h ≫= fun subs => subs !! id.

Definition subscribed (s : pubSub) (id : Z) : Prop :=
  exists h, is_Some (lookup_sub s h id).

(** The subscription map as [Subscribe] and [Unsubscribe] keep it: an id
    sits in one bucket only, and no id is above the counter. *)
Definition wf (s : pubSub) : Prop :=
  (forall h1 h2 id, is_Some (lookup_sub s h1 id) -> is_Some (lookup_sub s h2 id) -> h1 = h2) /\
  (forall h id, is_Some (lookup_sub s h id) -> id <= subAutoInc s).

(** The life cycle of the bus: either it is open, with its channels open
    and the goroutine parked at its select or busy with a path, or it is
    closed, with the channels closed and the goroutine gone.  The path in
    flight is the one that the goroutine has taken and not yet delivered. *)
Definition in_flight (s : pubSub) : option Path :=
  match publisher s with
  | Delivering p => Some p
  | _ => None
  end.

Definition alive (s : pubSub) : Prop :=
  closed s = false /\ pubPath s = Open /\ stop s = Open /\ closeErr s = Open /\
  (publisher s = Waiting \/ exists p, publisher s = Delivering p).

Definition shut (s : pubSub) : Prop :=
  closed s = true /\ pubPath s = Closed /\ stop s = Closed /\ closeErr s = Closed /\
  publisher s = Stopped.

(** The levels that [publish] fans a path out to, and at how many of them
    subscriber [id] sits in the bucket of the hash of the path. *)
Definition fanout_levels : list Z := [1; 2; -1].

Definition matching_levels (s : pubSub) (p : Path) (id : Z) : nat :=
  length (List.filter (fun l => bool_decide (is_Some (lookup_sub s (Hash p l).1 id)))
                      fanout_levels).

(** [sendMsg] and then the delivery by the goroutine. *)
Definition send_and_deliver (s : pubSub) (p : Path) : M pubSub :=
  bind (sendMsg s p) deliver.

(** The calls added to the log by a run from [e] that ends in [e']. *)
Definition new_calls (e e' : env) : list call :=
  drop (length (delivered e)) (delivered e').

(** Three receivers: one that accepts every message, one that returns an
    error, one that panics. *)
Definition accept : MessageReceiver := fun _ w => (Returns None, w).
Definition reject (err : error) : MessageReceiver := fun _ w => (Returns (Some err), w).
Definition panicking (v : panic_value) : MessageReceiver := fun _ w => (Panics v, w).

(** One use of the bus through its interface, or the delivery by its
    goroutine of the path it holds, in any order. *)
Inductive step : pubSub -> pubSub -> Prop :=
| step_Subscribe s p mr : step s (Subscribe s p mr).1
| step_Unsubscribe s id : step s (Unsubscribe s id).1
| step_sendMsg s p e s' e' : sendMsg s p e = (Ret s', e') -> step s s'
| step_deliver s e s' e' : deliver s e = (Ret s', e') -> step s s'
| step_Close s e r s' e' : Close (Some s) e = (r, Some s', e') -> step s s'.

(** The states of a bus that was created, whose goroutine was started, and
    that was used through its interface. *)
Definition reachable (s : pubSub) : Prop := rtc step (go_publish newPubSub) s.

End Subscriptions.

(** A run time to evaluate the bus with: no application state, the FNV
    hashes, and maps visited in the order of their listing. *)
#[export] Instance fnv_runtime : Runtime := {|
  World := unit;
  Hash := Hash_fnv;
  Hash32 := Hash32_fnv;
  range := fun A m => map_to_list m;
  range_perm := fun A m => Permutation_refl _;
|}.

(** A bus to run: started, with subscriber 1 on the route system, which
    accepts every message, and then subscriber 2 on system/smtp, which
    panics; and two paths to publish. *)
Definition bus0 : pubSub := go_publish newPubSub.
Definition bus1 : pubSub :=
  (Subscribe bus0 (mkPath (b "system") Default 0) accept).1.
Definition bus2 : pubSub :=
  (Subscribe bus1 (mkPath (b "system/smtp") Default 0) (panicking (PanicOther "boom"))).1.
(** The same bus with a subscriber 2 that panics with nil. *)
Definition bus3 : pubSub :=
  (Subscribe bus1 (mkPath (b "system/smtp") Default 0) (panicking PanicNil)).1.
Definition smtp_host : Path := mkPath (b "system/smtp/host") Default 0.
Definition other_path : Path := mkPath (b "other/kk/vv") Default 0.
Definition env0 : env := mkEnv tt [].

End spec.

(** ** Further code of the packages *)

Module perm_more.
Import scope perm.

(** [MakePerm]: the permission of a name; the zero [Perm] and an error of
    kind NotSupported for any other name. *)
Definition MakePerm (name : bytes) : Perm * option error :=
  if bytes_eqb name (b "default") || bytes_eqb name (b "d") || bytes_eqb name []
  then (PermDefault, None)
  else if bytes_eqb name (b "websites") || bytes_eqb name (b "website")
          || bytes_eqb name (b "w")
  then (PermWebsite, None)
  else if bytes_eqb name (b "stores") || bytes_eqb name (b "store")
          || bytes_eqb name (b "s")
  then (PermStore, None)
  else (0, Some (ErrKind NotSupported "[scope] Permission Scope identifier not supported"))%Z.

End perm_more.

Module ccd_more.
Import scope path ccd.

(** The storage with its write statement: whether it can be prepared, and
    whether its execution fails. *)
Record Storage := mkStorage {
  store : DBStorage;
  Write_Stmt : option error;
  Write_Exec : option error;
}.

(** The statement INSERT ... ON DUPLICATE KEY UPDATE value=? on the table:
    the row of the key (scope, scope_id, path) gets the value, and a row
    is added when there is none. *)
Definition upsert (t : list row) (scp : bytes) (id : Z) (pl : bytes) (v : bytes)
  : list row :=
  if existsb (row_matches scp id pl) t
  then map (fun r => if row_matches scp id pl r
                     then mkRow (r_scope r) (r_scope_id r) (r_path r) (Some v)
                     else r) t
  else t ++ [mkRow scp id pl (Some v)].

Section Set_.
(** The values handed to [Set] and their conversion [conv.ToStringE], whose
    code is not among the sources. *)
Context {V : Type} (ToStringE : V -> bytes * option error).

(** [DBStorage.Set]; the outer [option] is [None] only if [Level] gives no
    result. *)
Definition Set_ (st : Storage) (key : Path) (value : V) : option (Storage * option error) :=
  match ToStringE value with
  | (_, Some err) => Some (st, Some (ErrWrap err "[ccd] Set.conv.ToStringE"))
  | (valStr, None) =>
      match Write_Stmt st with
      | Some err => Some (st, Some (ErrWrap err "[ccd] Set.Write.Stmt"))
      | None =>
          match Level key (-1) with
          | None => None
          | Some (_, Some err) => Some (st, Some (ErrWrap err "[ccd] Set.key.Level"))
          | Some (pathLeveled, None) =>
              let scp := pScope key in
              let id := pID key in
              match Write_Exec st with
              | Some err => Some (st, Some (ErrWrap err "[ccd] Set.stmt.Exec"))
              | None =>
                  Some (mkStorage
                          (mkDB (upsert (table (store st)) (FromScope scp) id pathLeveled valStr)
                                (Read_Stmt (store st)))
                          (Write_Stmt st) (Write_Exec st),
                        None)
              end
          end
      end
  end.

End Set_.
End ccd_more.

Module pathslice.

(** The order of Go strings: byte by byte, a proper prefix first. *)
Fixpoint bytes_ltb (x y : bytes) : bool :=
  match x, y with
  | _, [] => false
  | [], _ :: _ => true
  | c :: x', d :: y' =>
      if byte_val c <? byte_val d then true
      else if byte_val d <? byte_val c then false
      else bytes_ltb x' y'
  end.

Section PathSlice.
(** The type of the field [ScopeID], whose declaration is not among the
    sources; the code compares two of them with [==]. *)
Context {TypeID : Type} `{EqDecision TypeID}.

(** The fields of a path that the slice reads: [p.ScopeID] and
    [p.Route.Data], a string. *)
Record Path := mkPath { ScopeID : TypeID; Route_Data : bytes }.

Definition PathSlice := list Path.

(** [Contains]: a path of the slice has the scope id and the route. *)
Fixpoint Contains (ps : PathSlice) (p : Path) : bool :=
  match ps with
  | [] => false
  | pps :: ps' =>
      if bool_decide (ScopeID pps = ScopeID p)
         && bool_decide (Route_Data pps = Route_Data p)
      then true
      else Contains ps' p
  end.

Definition Len (ps : PathSlice) : Z := len ps.

(** [Less] on two paths of the slice. *)
Definition Less (a c : Path) : bool := bytes_ltb (Route_Data a) (Route_Data c).

(** [sort.Stable] over [Less]: the stable sort of a list is one list, here
    built by insertion from the right, a path going in front of the first
    one that is not less than it. *)
Fixpoint insert_stable (x : Path) (l : PathSlice) : PathSlice :=
  match l with
  | [] => [x]
  | y :: l' => if Less y x then y :: insert_stable x l' else x :: y :: l'
  end.

Definition Sort (ps : PathSlice) : PathSlice := foldr insert_stable [] ps.

(** The order that [Sort] establishes between a path and a later one: the
    later one is not less. *)
Definition ordered (a c : Path) : Prop := Less c a = false.

End PathSlice.
Arguments Path _ : clear implicits.
Arguments PathSlice _ : clear implicits.

End pathslice.

Module spec_more.
Import scope path config spec.

Section Buckets.
Context `{RT : Runtime}.

(** No topic of the subscription map has an empty bucket. *)
Definition no_empty_bucket (s : pubSub) : Prop :=
  forall h subs, subMap s !! h = Some subs -> subs ≠ ∅.

End Buckets.

(** The bytes that [IsValid] lets through, as a property of one byte. *)
Definition allowed_byte (c : ascii) : Prop :=
  (byte_val "0" <= byte_val c <= byte_val "9") \/
  (byte_val "a" <= byte_val c <= byte_val "z") \/
  (byte_val "A" <= byte_val c <= byte_val "Z") \/
  c = "_"%char \/ c = rSeparator.

(** The key of a path in the table: the prefix of its scope, its id and its
    route. *)
Definition table_key (p : Path) : bytes * Z * bytes :=
  (FromScope (pScope p), pID p, pRoute p).

(** The names that [MakePerm] knows. *)
Definition perm_names : list bytes :=
  [b "default"; b "d"; []; b "websites"; b "website"; b "w";
   b "stores"; b "store"; b "s"].

End spec_more.

(** * Properties *)

Module path_facts.
Import scope path spec.

Lemma byte_val_range c : 0 <= byte_val c < 256.
Proof. destruct c as [[] [] [] [] [] [] [] []]; vm_compute; split; congruence. Qed.

Lemma classify_sep c : (classify (byte_val c)).2 = Ascii.eqb c rSeparator.
Proof. destruct c as [[] [] [] [] [] [] [] []]; reflexivity. Qed.

Lemma len_nil {A} : len (@nil A) = 0.
Proof. reflexivity. Qed.

Lemma len_cons {A} (x : A) l : len (x :: l) = len l + 1.
Proof. unfold len. simpl length. lia. Qed.

Lemma len_app {A} (l1 l2 : list A) : len (l1 ++ l2) = len l1 + len l2.
Proof. unfold len. rewrite length_app. lia. Qed.

Lemma len_nonneg {A} (l : list A) : 0 <= len l.
Proof. unfold len. lia. Qed.

Lemma Route_IsEmpty_false (r : list ascii) : r ≠ [] -> Route_IsEmpty r = false.
Proof.
  intros H. unfold Route_IsEmpty. destruct r as [|c r]; [done|].
  rewrite len_cons. pose proof (len_nonneg r). lia.
Qed.

Lemma Count_nonneg s c : 0 <= Count s c.
Proof. induction s as [|x s IH]; simpl; [lia|]. destruct (Ascii.eqb x c); lia. Qed.

Lemma Count_app s1 s2 c : Count (s1 ++ s2) c = Count s1 c + Count s2 c.
Proof. induction s1 as [|x s1 IH]; simpl; [lia|]. rewrite IH. lia. Qed.

Lemma utf8_Valid_ascii r :
  forallb (fun c => byte_val c <? 128) r = true -> utf8_Valid r = true.
Proof.
  induction r as [|c r IH]; simpl; [done|].
  intros [Hc Hr]%andb_true_iff. rewrite Hc. auto.
Qed.

Lemma allowed_ascii r :
  forallb allowed r = true -> forallb (fun c => byte_val c <? 128) r = true.
Proof.
  induction r as [|c r IH]; simpl; [done|].
  intros [Hc Hr]%andb_true_iff. apply andb_true_iff. split; [|auto].
  unfold allowed, RuneSelf in Hc. apply andb_true_iff in Hc. tauto.
Qed.

(** What the loop of [IsValid] accepts, from any point of the scan. *)
Lemma IsValid_loop_None rest sc ln :
  IsValid_loop rest sc ln = None <->
  forallb allowed rest = true /\ sc + Count rest rSeparator = Levels - 1 /\
  8 <= ln + len rest.
Proof.
  revert sc ln. induction rest as [|c rest IH]; intros sc ln.
  - cbn [IsValid_loop forallb Count]. change (len (@nil ascii)) with 0. unfold Levels.
    destruct (sc =? 3 - 1) eqn:E1; destruct (ln <? 8) eqn:E2; simpl;
      split; try discriminate; try (intros (_ & ? & ?); lia); intros _; repeat split; lia.
  - cbn [IsValid_loop forallb Count]. rewrite len_cons. unfold allowed at 1.
    pose proof (classify_sep c) as Hs.
    destruct (byte_val c <? RuneSelf) eqn:Ec; cbn [andb].
    + destruct (classify (byte_val c)) as [ok sp] eqn:Ek. cbn [fst snd] in *. subst sp.
      destruct ok; cbn [negb andb].
      * rewrite IH. destruct (Ascii.eqb c rSeparator); split; intros (? & ? & ?);
          repeat split; auto; lia.
      * split; [discriminate|]. intros (? & _). discriminate.
    + split; [discriminate|]. intros (? & _). discriminate.
Qed.

(** What [IsValid] accepts: the route is not empty, every byte is allowed,
    there are two separators, and there are at least eight bytes. *)
Lemma IsValid_None p :
  IsValid p = None <->
  pRoute p ≠ [] /\ forallb allowed (pRoute p) = true /\
  Count (pRoute p) rSeparator = Levels - 1 /\ 8 <= len (pRoute p).
Proof.
  unfold IsValid, Route_IsEmpty, Route_Valid. destruct p as [r sc id]. cbn [pRoute].
  destruct r as [|c r].
  - simpl. split; [discriminate|]. intros (? & _). done.
  - pose proof (len_cons c r) as Hlc. pose proof (len_nonneg r).
    destruct (len (c :: r) =? 0) eqn:E; [lia|].
    split.
    + destruct (utf8_Valid (c :: r)); cbn [negb]; [|discriminate].
      intros H1%IsValid_loop_None. destruct H1 as (? & ? & ?).
      repeat split; auto; try lia.
    + intros (_ & Ha & Hc & Hl).
      rewrite (utf8_Valid_ascii _ (allowed_ascii _ Ha)). cbn [negb].
      apply IsValid_loop_None. repeat split; auto; lia.
Qed.

End path_facts.

Module level_facts.
Import scope path spec path_facts.

(** The two outcomes of [bytes.IndexRune]. *)
Lemma IndexRune_cases (s : list ascii) c :
  (IndexRune s c = -1 /\ (c ∉ s)) \/
  (exists seg rest, s = seg ++ c :: rest /\ (c ∉ seg) /\ IndexRune s c = len seg).
Proof.
  induction s as [|x s IH]; simpl.
  - left. split; [done|]. apply not_elem_of_nil.
  - destruct (Ascii.eqb_spec x c) as [->|Hne].
    + right. exists [], s. repeat split. apply not_elem_of_nil.
    + destruct IH as [[H1 H2]|(seg & rest & -> & Hseg & Hi)].
      * left. rewrite H1. simpl. split; [done|].
        rewrite not_elem_of_cons. split; congruence.
      * right. exists (x :: seg), rest. rewrite Hi, len_cons.
        pose proof (len_nonneg seg).
        destruct (len seg =? -1) eqn:E; [lia|].
        repeat split. rewrite not_elem_of_cons. split; congruence.
Qed.

Lemma split_sep_nosep (seg : list ascii) : rSeparator ∉ seg -> split_sep seg = [seg].
Proof.
  induction seg as [|x seg IH]; [done|].
  rewrite not_elem_of_cons. intros [Hx Hs]. simpl.
  destruct (Ascii.eqb_spec x rSeparator); [congruence|]. by rewrite IH.
Qed.

Lemma split_sep_app (seg rest : list ascii) :
  rSeparator ∉ seg -> split_sep (seg ++ rSeparator :: rest) = seg :: split_sep rest.
Proof.
  induction seg as [|x seg IH].
  - intros _. simpl. done.
  - rewrite not_elem_of_cons. intros [Hx Hs]. simpl.
    destruct (Ascii.eqb_spec x rSeparator); [congruence|]. by rewrite IH.
Qed.

Lemma split_sep_length r : len (split_sep r) = Count r rSeparator + 1.
Proof.
  induction r as [|x r IH]; [done|]. simpl.
  destruct (Ascii.eqb x rSeparator).
  - rewrite len_cons, IH. lia.
  - destruct (split_sep r) as [|s l]; [rewrite len_nil in IH; pose proof (Count_nonneg r rSeparator); lia|].
    rewrite len_cons in *. lia.
Qed.

Lemma join_split r : join_sep (split_sep r) = r.
Proof.
  induction r as [|x r IH]; [done|]. simpl.
  destruct (Ascii.eqb_spec x rSeparator) as [->|Hne].
  - destruct (split_sep r) as [|s l] eqn:E.
    + pose proof (split_sep_length r) as Hl. rewrite E, len_nil in Hl.
      pose proof (Count_nonneg r rSeparator). lia.
    + cbn [join_sep]. cbn [join_sep] in IH. rewrite IH. done.
  - destruct (split_sep r) as [|s l] eqn:E.
    + pose proof (split_sep_length r) as Hl. rewrite E, len_nil in Hl.
      pose proof (Count_nonneg r rSeparator). lia.
    + cbn [join_sep] in *. destruct l; simpl; by rewrite <- IH.
Qed.

Lemma first_segments_nosep n (seg : list ascii) :
  rSeparator ∉ seg -> first_segments (S n) seg = seg.
Proof.
  intros H. unfold first_segments. rewrite split_sep_nosep by done.
  simpl. by rewrite take_nil.
Qed.

Lemma first_segments_one (seg rest : list ascii) :
  rSeparator ∉ seg -> first_segments 1 (seg ++ rSeparator :: rest) = seg.
Proof.
  intros H. unfold first_segments. rewrite split_sep_app by done. done.
Qed.

Lemma split_sep_cons r : exists s l, split_sep r = s :: l.
Proof.
  destruct (split_sep r) as [|s l] eqn:E; [|eauto].
  pose proof (split_sep_length r) as Hl. rewrite E, len_nil in Hl.
  pose proof (Count_nonneg r rSeparator). lia.
Qed.

Lemma first_segments_more n (seg rest : list ascii) :
  rSeparator ∉ seg ->
  first_segments (S (S n)) (seg ++ rSeparator :: rest)
  = seg ++ rSeparator :: first_segments (S n) rest.
Proof.
  intros H. unfold first_segments. rewrite split_sep_app by done.
  destruct (split_sep_cons rest) as (s & l & ->). done.
Qed.

Lemma first_segments_all n r :
  (length (split_sep r) <= n)%nat -> first_segments n r = r.
Proof.
  intros H. unfold first_segments. rewrite take_ge by done. apply join_split.
Qed.

(** The first segments are a prefix that stops before a separator or at the
    end. *)
Lemma first_segments_prefix n r :
  exists rest, r = first_segments (S n) r ++ rest /\
               (rest = [] \/ exists rest', rest = rSeparator :: rest').
Proof.
  revert r. induction n as [|n IH]; intros r.
  - destruct (IndexRune_cases r rSeparator) as [[_ H]|(seg & rest & -> & Hs & _)].
    + exists []. rewrite first_segments_nosep by done. rewrite app_nil_r. auto.
    + exists (rSeparator :: rest). rewrite first_segments_one by done. eauto.
  - destruct (IndexRune_cases r rSeparator) as [[_ H]|(seg & rest & -> & Hs & _)].
    + exists []. rewrite first_segments_nosep by done. rewrite app_nil_r. auto.
    + destruct (IH rest) as (rest1 & Heq & Hb).
      exists rest1. rewrite first_segments_more by done. split; [|done].
      rewrite <- app_assoc. cbn [app]. by rewrite <- Heq.
Qed.

Lemma slice_from_app {A} (pre rest : list A) : slice_from (pre ++ rest) (len pre) = rest.
Proof. unfold slice_from, len. by rewrite Nat2Z.id, drop_app_length. Qed.

Lemma slice_to_app {A} (pre seg rest : list A) :
  slice_to (pre ++ seg ++ rest) (len pre + len seg) = pre ++ seg.
Proof.
  unfold slice_to, len. rewrite <- Nat2Z.inj_add, Nat2Z.id.
  rewrite app_assoc, <- length_app. apply take_app_length.
Qed.

(** The loop of [Level] from position [len pre], about to look for
    separator number [i]: it returns, and it returns what was scanned so far
    and the next [level - i + 1] segments. *)
Lemma Level_loop_spec fuel pre rest level i :
  (length rest < fuel)%nat -> 1 <= i <= level ->
  Level_loop fuel (pre ++ rest) level (len pre) i
  = Some (pre ++ first_segments (Z.to_nat (level - i + 1)) rest).
Proof.
  revert pre rest i. induction fuel as [|fuel IH]; intros pre rest i Hf Hi; [lia|].
  cbn [Level_loop]. rewrite slice_from_app, len_app. pose proof (len_nonneg rest).
  destruct (len pre <=? len pre + len rest) eqn:E; [|lia].
  replace (Z.to_nat (level - i + 1)) with (S (Z.to_nat (level - i))) by lia.
  unfold Route_Copy.
  destruct (IndexRune_cases rest rSeparator) as [[-> H1]|(seg & rest' & -> & Hs & ->)].
  - simpl. by rewrite first_segments_nosep.
  - pose proof (len_nonneg seg).
    destruct (len seg =? -1) eqn:E1; [lia|].
    destruct (i =? level) eqn:E2.
    + replace (level - i) with 0 by lia. rewrite first_segments_one by done.
      f_equal. replace (len pre + (len seg + 1) - 1) with (len pre + len seg) by lia.
      apply slice_to_app.
    + replace (Z.to_nat (level - i)) with (S (Z.to_nat (level - (i + 1)))) by lia.
      rewrite first_segments_more by done.
      replace (pre ++ seg ++ rSeparator :: rest')
        with ((pre ++ seg ++ [rSeparator]) ++ rest')
        by (rewrite <- !app_assoc; done).
      replace (len pre + (len seg + 1)) with (len (pre ++ seg ++ [rSeparator]))
        by (rewrite !len_app, len_cons, len_nil; lia).
      rewrite IH.
      * replace (Z.to_nat (level - (i + 1) + 1)) with (S (Z.to_nat (level - (i + 1)))) by lia.
        rewrite <- !app_assoc. done.
      * rewrite length_app in Hf. simpl in Hf. lia.
      * lia.
Qed.

End level_facts.

Module path_theorems.
Import scope path spec path_facts level_facts.

(** C9.  For a valid path, [Level n] with [n < 0] returns the whole route,
    [Level 0] returns the empty route, and [Level n] with [n >= 1] returns
    the first [n] segments of the route: a prefix of the route that ends
    right before a separator or at the end of the route. *)
Theorem Level_segments (p : Path) (n : Z) :
  IsValid p = None ->
  (n < 0 -> Level p n = Some (pRoute p, None)) /\
  (n = 0 -> Level p n = Some ([], None)) /\
  (1 <= n ->
   exists r rest,
     Level p n = Some (r, None) /\
     r = first_segments (Z.to_nat n) (pRoute p) /\
     pRoute p = r ++ rest /\
     (rest = [] \/ exists rest', rest = rSeparator :: rest')).
Proof.
  intros Hv. pose proof Hv as (Hne & _ & Hc & Hl)%IsValid_None.
  unfold Level. rewrite Hv. unfold Route_Copy. repeat split.
  - intros Hn. destruct (n <? 0) eqn:E; [done|lia].
  - intros ->. simpl. destruct (len (pRoute p) <=? 0) eqn:E; [lia|done].
  - intros Hn.
    destruct (first_segments_prefix (Z.to_nat n - 1) (pRoute p)) as (rest & Hr & Hb).
    replace (S (Z.to_nat n - 1)) with (Z.to_nat n) in Hr by lia.
    exists (first_segments (Z.to_nat n) (pRoute p)), rest.
    split; [|done].
    destruct (n <? 0) eqn:E0; [lia|]. cbn [orb].
    destruct (len (pRoute p) <=? n) eqn:E1.
    + rewrite first_segments_all; [done|].
      pose proof (split_sep_length (pRoute p)) as Hs. rewrite Hc in Hs.
      unfold len, Levels in *. lia.
    + destruct (n =? 0) eqn:E2; [lia|].
      rewrite (Level_loop_spec _ [] (pRoute p) n 1) by lia.
      replace (n - 1 + 1) with n by lia. done.
Qed.

Lemma Level_segments_witness :
  IsValid (mkPath (b "system/smtp/host") Store 3) = None /\
  exists r rest,
    Level (mkPath (b "system/smtp/host") Store 3) 2 = Some (r, None) /\
    r = first_segments (Z.to_nat 2) (b "system/smtp/host") /\
    b "system/smtp/host" = r ++ rest /\
    (rest = [] \/ exists rest', rest = rSeparator :: rest').
Proof.
  split; [reflexivity|].
  apply (Level_segments (mkPath (b "system/smtp/host") Store 3) 2); [reflexivity|lia].
Defined.

End path_theorems.

Module strconv_facts.
Import path spec path_facts.

Lemma digits_of_uint d :
  forallb is_digit (list_ascii_of_string (NilEmpty.string_of_uint d)) = true.
Proof. induction d; simpl; rewrite ?IHd; reflexivity. Qed.

Lemma uint_head_digit d :
  d <> Decimal.Nil ->
  exists c s, NilEmpty.string_of_uint d = String c s /\ is_digit c = true.
Proof. destruct d; [done|..]; intros _; simpl; eexists _, _; split; reflexivity. Qed.

Lemma NilZero_string_of_uint d :
  d <> Decimal.Nil -> NilZero.string_of_uint d = NilEmpty.string_of_uint d.
Proof. by destruct d. Qed.

Lemma digit_not_sign c :
  is_digit c = true -> Ascii.eqb c "+" = false /\ Ascii.eqb c "-" = false.
Proof. destruct c as [[] [] [] [] [] [] [] []]; vm_compute; intros; split; congruence. Qed.

Lemma digit_props c :
  is_digit c = true -> (byte_val c <? 128) = true /\ c <> rSeparator.
Proof.
  destruct c as [[] [] [] [] [] [] [] []]; vm_compute; intros; split; congruence.
Qed.

(** Printing and reading back an int64 gives the same number. *)
Lemma ParseInt_AppendInt z :
  MinInt64 <= z <= MaxInt64 -> ParseInt (AppendInt z) = (z, None).
Proof.
  intros Hz. destruct z as [|p|p]; [reflexivity|..]; unfold AppendInt, ParseInt;
    cbn [Z.to_int NilZero.string_of_int];
    pose proof (DecimalPos.Unsigned.to_uint_nonnil p) as Hnn;
    rewrite (NilZero_string_of_uint _ Hnn).
  - destruct (uint_head_digit _ Hnn) as (c & s & Hs & Hc).
    destruct (digit_not_sign _ Hc) as [Hp Hm].
    rewrite Hs. cbn [list_ascii_of_string]. rewrite Hp, Hm.
    change (c :: list_ascii_of_string s) with (list_ascii_of_string (String c s)).
    rewrite string_of_list_ascii_of_string, <- Hs.
    rewrite <- (NilZero_string_of_uint _ Hnn), (NilZero.usu _ Hnn).
    unfold N.of_uint. rewrite DecimalPos.Unsigned.of_to. cbn [negb andb Z.of_N].
    destruct (MaxInt64 <? Z.pos p) eqn:E; [lia|done].
  - cbn [list_ascii_of_string]. change (Ascii.eqb "-" "+") with false.
    change (Ascii.eqb "-" "-") with true. cbn iota.
    rewrite string_of_list_ascii_of_string.
    rewrite <- (NilZero_string_of_uint _ Hnn), (NilZero.usu _ Hnn).
    unfold N.of_uint. rewrite DecimalPos.Unsigned.of_to. cbn [negb andb Z.of_N].
    destruct (- MinInt64 <? Z.pos p) eqn:E; [lia|done].
Qed.

Lemma uint_of_string_digits str u :
  NilEmpty.uint_of_string str = Some u ->
  forallb is_digit (list_ascii_of_string str) = true.
Proof.
  revert u. induction str as [|a str IH]; intros u; [done|].
  cbn [NilEmpty.uint_of_string list_ascii_of_string forallb].
  destruct (NilEmpty.uint_of_string str) as [d|]; [|discriminate].
  intros H. rewrite (IH d eq_refl), andb_true_r.
  apply uint_of_char_spec in H.
  destruct H as [[-> _]|[[-> _]|[[-> _]|[[-> _]|[[-> _]|[[-> _]|[[-> _]|[[-> _]|[[-> _]|[-> _]]]]]]]]]];
    reflexivity.
Qed.

Lemma uint_of_list_digits (digits : list ascii) u :
  NilZero.uint_of_string (string_of_list_ascii digits) = Some u ->
  negb (bool_decide (digits = [])) && forallb is_digit digits = true.
Proof.
  intros Hu. unfold NilZero.uint_of_string in Hu.
  destruct digits as [|d0 dg]; [discriminate|].
  rewrite bool_decide_eq_false_2 by done. cbn [negb andb].
  change (string_of_list_ascii (d0 :: dg)) with (String d0 (string_of_list_ascii dg)) in Hu.
  apply uint_of_string_digits in Hu.
  cbn [list_ascii_of_string] in Hu. by rewrite list_ascii_of_string_of_list_ascii in Hu.
Qed.

(** [ParseInt] succeeds on nothing but an optional sign and digits. *)
Lemma ParseInt_syntax s : (ParseInt s).2 = None -> integer_syntax s = true.
Proof.
  unfold ParseInt, integer_syntax. destruct s as [|c s']; [discriminate|].
  destruct (Ascii.eqb c "+"); [|destruct (Ascii.eqb c "-")]; cbn [orb];
    (destruct (NilZero.uint_of_string _) as [u|] eqn:Hu; [|cbn; discriminate]);
    intros _; by apply (uint_of_list_digits _ u).
Qed.

(** The printed number is ASCII and holds no separator. *)
Lemma AppendInt_bytes z :
  forallb (fun c => byte_val c <? 128) (AppendInt z) = true /\
  (rSeparator ∉ AppendInt z).
Proof.
  assert (Hd : forall d, forallb (fun c => byte_val c <? 128)
                           (list_ascii_of_string (NilEmpty.string_of_uint d)) = true /\
                         (rSeparator ∉ list_ascii_of_string (NilEmpty.string_of_uint d))).
  { intros d. pose proof (digits_of_uint d) as H.
    induction (list_ascii_of_string (NilEmpty.string_of_uint d)) as [|c l IH].
    - split; [done|apply not_elem_of_nil].
    - simpl in H. apply andb_true_iff in H as [Hc Hl].
      destruct (digit_props _ Hc) as [H1 H2]. destruct (IH Hl) as [H3 H4].
      split; [simpl; by rewrite H1, H3|].
      rewrite not_elem_of_cons. split; congruence. }
  destruct z as [|p|p]; unfold AppendInt; cbn [Z.to_int NilZero.string_of_int].
  - exact (Hd (Decimal.D0 Decimal.Nil)).
  - rewrite NilZero_string_of_uint by apply DecimalPos.Unsigned.to_uint_nonnil. apply Hd.
  - rewrite NilZero_string_of_uint by apply DecimalPos.Unsigned.to_uint_nonnil.
    cbn [list_ascii_of_string]. destruct (Hd (Pos.to_uint p)) as [H1 H2].
    split; [simpl; by rewrite H1|].
    rewrite not_elem_of_cons. split; [discriminate|done].
Qed.

End strconv_facts.

Module fq_facts.
Import scope path spec path_facts level_facts strconv_facts.

Lemma IndexRune_app (seg rest : list ascii) c :
  c ∉ seg -> IndexRune (seg ++ c :: rest) c = len seg.
Proof.
  induction seg as [|x seg IH]; simpl.
  - intros _. by rewrite Ascii.eqb_refl.
  - rewrite not_elem_of_cons. intros [Hx Hs].
    destruct (Ascii.eqb_spec x c); [congruence|].
    rewrite (IH Hs), len_cons. pose proof (len_nonneg seg).
    destruct (len seg =? -1) eqn:E; [lia|done].
Qed.

Lemma Count_nosep (s : list ascii) c : c ∉ s -> Count s c = 0.
Proof.
  induction s as [|x s IH]; simpl; [done|].
  rewrite not_elem_of_cons. intros [Hx Hs].
  destruct (Ascii.eqb_spec x c); [congruence|]. rewrite IH; [lia|done].
Qed.

Lemma slice_to_pre {A} (pre rest : list A) : slice_to (pre ++ rest) (len pre) = pre.
Proof. unfold slice_to, len. rewrite Nat2Z.id. apply take_app_length. Qed.

Lemma slice_from_cons {A} (pre : list A) x rest :
  slice_from (pre ++ x :: rest) (len pre + 1) = rest.
Proof.
  replace (pre ++ x :: rest) with ((pre ++ [x]) ++ rest) by (by rewrite <- app_assoc).
  replace (len pre + 1) with (len (pre ++ [x])) by (rewrite len_app, len_cons, len_nil; lia).
  apply slice_from_app.
Qed.

(** [SplitFQ] on a well-formed split into scope, id and route. *)
Lemma SplitFQ_parts (scp idb rest : list ascii) :
  rSeparator ∉ scp -> rSeparator ∉ idb ->
  let fq := scp ++ rSeparator :: idb ++ rSeparator :: rest in
  isFQ fq = true -> Route_Valid fq = true ->
  SplitFQ fq =
    if negb (ValidBytes scp) then (Path_zero, Some ErrUnsupportedScope)
    else (mkPath rest (FromBytes scp) (ParseInt idb).1, (ParseInt idb).2).
Proof.
  intros Hs Hi fq Hfq Hv. unfold SplitFQ. rewrite Hfq, Hv. cbn [negb orb].
  unfold fq. rewrite IndexRune_app by done. rewrite slice_to_pre.
  destruct (ValidBytes scp); cbn [negb]; [|done].
  rewrite slice_from_cons, IndexRune_app by done.
  rewrite slice_to_pre, slice_from_cons. by destruct (ParseInt idb).
Qed.

Lemma FromScope_bytes s :
  (rSeparator ∉ FromScope s) /\ ValidBytes (FromScope s) = true /\
  forallb (fun c => byte_val c <? 128) (FromScope s) = true.
Proof.
  assert (H : forall l : list ascii, forallb (fun c => negb (Ascii.eqb c rSeparator)) l = true ->
                                     rSeparator ∉ l).
  { induction l as [|x l IH]; simpl; [intros; apply not_elem_of_nil|].
    intros [Hx Hl]%andb_true_iff. rewrite not_elem_of_cons. split; [|auto].
    destruct (Ascii.eqb_spec x rSeparator); [done|congruence]. }
  destruct s; (split; [apply H; reflexivity|split; reflexivity]).
Qed.

(** [FQ] followed by [SplitFQ], for any scope kind and any int64 id. *)
Lemma SplitFQ_FQ p :
  IsValid p = None -> MinInt64 <= pID p <= MaxInt64 ->
  exists fq,
    FQ p = (fq, None) /\
    SplitFQ fq =
      (mkPath (pRoute p) (FromBytes (FromScope (pScope p)))
              (if bool_decide (pScope p = DefaultID) && (0 <? pID p) then 0 else pID p),
       None).
Proof.
  intros Hv Hid. pose proof Hv as (Hne & Ha & Hc & Hl)%IsValid_None.
  unfold FQ. rewrite Hv. unfold StrScope.
  set (id := if bool_decide (pScope p = DefaultID) && (0 <? pID p) then 0 else pID p).
  assert (Hid' : MinInt64 <= id <= MaxInt64).
  { unfold id. destruct (bool_decide _ && _); [unfold MinInt64, MaxInt64|]; lia. }
  eexists. split; [reflexivity|].
  destruct (FromScope_bytes (pScope p)) as (Hs1 & Hs2 & Hs3).
  destruct (AppendInt_bytes id) as [Hi1 Hi2].
  replace (((FromScope (pScope p) ++ [rSeparator]) ++ AppendInt id) ++ [rSeparator] ++ pRoute p)
    with (FromScope (pScope p) ++ rSeparator :: AppendInt id ++ rSeparator :: pRoute p)
    by (rewrite <- !app_assoc; done).
  rewrite SplitFQ_parts; try done.
  - rewrite Hs2. cbn [negb]. by rewrite (ParseInt_AppendInt _ Hid').
  - unfold isFQ. rewrite Count_app. cbn [Count]. rewrite Count_app. cbn [Count].
    rewrite Ascii.eqb_refl, !Count_nosep, Hc by done. reflexivity.
  - unfold Route_Valid. apply utf8_Valid_ascii.
    rewrite forallb_app. cbn [forallb]. rewrite forallb_app. cbn [forallb].
    rewrite Hs3, Hi1, (allowed_ascii _ Ha). reflexivity.
Qed.

End fq_facts.

Module path_claims.
Import scope path spec path_facts level_facts strconv_facts fq_facts.

(** C2.  For a valid route and a scope id (a kind with a prefix and an
    int64 id), [SplitFQ] returns what [FQ] wrote: the route, the kind and
    the id, with 0 for a positive id of the Default scope.  This is the
    canonical form of the path (the id of the Default scope is 0) for every
    scope id but those of the Default scope with a negative id, which [FQ]
    writes as it is: the path aa/bb/cc with the Default scope and the id -1
    comes back with the id -1, not 0.  [SplitFQ] fails on an input with fewer
    than [Levels + 1] separators, with an unknown scope prefix, or with an id
    that is not an integer (an optional sign and digits). *)
Theorem SplitFQ_FQ_negative_Default_id :
  (forall r s id,
     IsValid (mkPath r s id) = None -> valid_ScopeID s id ->
     exists fq,
       FQ (mkPath r s id) = (fq, None) /\
       SplitFQ fq
       = (mkPath r s (if bool_decide (s = Default) && (0 <? id) then 0 else id), None) /\
       (SplitFQ fq = (canonical (mkPath r s id), None) <-> ~ (s = Default /\ id < 0))) /\
  (valid_ScopeID Default (-1) /\
   IsValid (mkPath (b "aa/bb/cc") Default (-1)) = None /\
   FQ (mkPath (b "aa/bb/cc") Default (-1)) = (b "default/-1/aa/bb/cc", None) /\
   SplitFQ (b "default/-1/aa/bb/cc") = (mkPath (b "aa/bb/cc") Default (-1), None) /\
   canonical (mkPath (b "aa/bb/cc") Default (-1)) = mkPath (b "aa/bb/cc") Default 0 /\
   SplitFQ (b "default/-1/aa/bb/cc")
   <> (canonical (mkPath (b "aa/bb/cc") Default (-1)), None)) /\
  (forall fq, Count fq rSeparator < Levels + 1 ->
              exists e, (SplitFQ fq).2 = Some e) /\
  (forall scp rest : list ascii,
     rSeparator ∉ scp -> ValidBytes scp = false ->
     exists e, (SplitFQ (scp ++ rSeparator :: rest)).2 = Some e) /\
  (forall (scp idb rest : list ascii),
     rSeparator ∉ scp -> rSeparator ∉ idb -> integer_syntax idb = false ->
     exists e, (SplitFQ (scp ++ rSeparator :: idb ++ rSeparator :: rest)).2 = Some e).
Proof.
  split; [|split; [|split; [|split]]].
  - intros r s id Hv [Hs Hid].
    destruct (SplitFQ_FQ (mkPath r s id) Hv Hid) as (fq & Hfq & Hsp).
    cbn [pRoute pScope pID] in Hsp.
    assert (Hk : FromBytes (FromScope s) = s) by (by destruct Hs as [->| [->| ->]]).
    rewrite Hk in Hsp. exists fq. split; [done|]. split; [done|].
    rewrite Hsp. unfold canonical. cbn [pScope pRoute].
    destruct (decide (s = Default)) as [->|Hne].
    + rewrite !bool_decide_eq_true_2 by done. cbn [andb].
      destruct (0 <? id) eqn:E.
      * split; [lia|done].
      * split.
        -- intros [= ->]. lia.
        -- intros Hn. assert (id = 0) as -> by (destruct (decide (id < 0)); [tauto|lia]).
           done.
    + rewrite !bool_decide_eq_false_2 by done. cbn [andb]. split; [tauto|done].
  - split; [split; [auto|unfold MinInt64, MaxInt64; lia]|].
    repeat split; try reflexivity. vm_compute. congruence.
  - intros fq Hc. unfold SplitFQ, isFQ.
    destruct (Levels + 1 <=? Count fq rSeparator) eqn:E; [lia|]. cbn. eauto.
  - intros scp rest Hs Hvb. unfold SplitFQ.
    destruct (negb (isFQ _) || negb (Route_Valid _)); [cbn; eauto|].
    rewrite IndexRune_app, slice_to_pre, Hvb by done. cbn. eauto.
  - intros scp idb rest Hs Hi He. unfold SplitFQ.
    destruct (negb (isFQ _) || negb (Route_Valid _)); [cbn; eauto|].
    rewrite IndexRune_app, slice_to_pre by done.
    destruct (ValidBytes scp); [|cbn; eauto]. cbn [negb].
    rewrite slice_from_cons, IndexRune_app, slice_to_pre by done.
    pose proof (ParseInt_syntax idb) as Hp.
    destruct (ParseInt idb) as [z [err|]]; [cbn; eauto|].
    rewrite Hp in He by done. discriminate.
Qed.

(** What [FQ] writes for the Default scope: a positive id becomes 0, any
    other id is written as it is. *)
Lemma FQ_Default r id :
  IsValid (mkPath r Default id) = None ->
  FQ (mkPath r Default id)
  = (b "default/" ++ AppendInt (if 0 <? id then 0 else id) ++ rSeparator :: r, None).
Proof.
  intros Hv. unfold FQ. rewrite Hv. cbn [pScope pID pRoute StrScope FromScope].
  rewrite bool_decide_eq_true_2 by done. cbn [andb].
  rewrite <- !app_assoc. reflexivity.
Qed.

(** C6.  For a path in the Default scope whose id is negative, [FQ] does not
    write the id 0: with id -1 it returns default/-1/aa/bb/cc, where the
    claim has default/0/aa/bb/cc. *)
Theorem FQ_Default_negative_id :
  FQ (mkPath (b "aa/bb/cc") Default (-1)) = (b "default/-1/aa/bb/cc", None) /\
  FQ (mkPath (b "aa/bb/cc") Default 5) = (b "default/0/aa/bb/cc", None).
Proof. split; reflexivity. Qed.

(** C3.  [IsValid] accepts routes that break the Route invariants: a/b/cdefg
    has two segments of one byte, aaaa/bbbb/ ends in a separator and so has
    an empty last segment; both have two separators and at least eight
    bytes, which is all that the code checks besides the bytes allowed. *)
Theorem IsValid_accepts_short_segments :
  IsValid (mkPath (b "a/b/cdefg") Default 0) = None /\
  (New (b "a/b/cdefg")).2 = None /\
  ~ route_invariants (b "a/b/cdefg") /\
  IsValid (mkPath (b "aaaa/bbbb/") Default 0) = None /\
  (New (b "aaaa/bbbb/")).2 = None /\
  ~ route_invariants (b "aaaa/bbbb/").
Proof.
  repeat split; try reflexivity.
  - intros (_ & _ & H & _). cbn in H. inversion H as [|? ? Hbad _].
    vm_compute in Hbad. by apply Hbad.
  - intros (_ & _ & H & _). cbn in H.
    inversion H as [|? ? _ Hb1]. inversion Hb1 as [|? ? _ Hb2].
    inversion Hb2 as [|? ? Hbad _]. vm_compute in Hbad. by apply Hbad.
Qed.

(** The literal scenarios of the spec for paths. *)
Example path_scenarios :
  FQ (Bind (New (b "system/smtp/host")).1 Store 3) = (b "stores/3/system/smtp/host", None) /\
  (New (b "a/b")).2 = Some ErrIncorrectPath /\
  SplitFQ (b "stores/5/catalog/frontend/list_allow_all")
  = (mkPath (b "catalog/frontend/list_allow_all") Store 5, None) /\
  (SplitFQ (b "default/5/aa/bb/cc")).1 = mkPath (b "aa/bb/cc") Default 5 /\
  (FQ (SplitFQ (b "default/5/aa/bb/cc")).1).1 = b "default/0/aa/bb/cc".
Proof. repeat split; reflexivity. Qed.

(** The invariants that [IsValid] does enforce, and what it accepts. *)
Lemma IsValid_enforces p :
  IsValid p = None ->
  pRoute p ≠ [] /\ Count (pRoute p) rSeparator = Levels - 1 /\
  8 <= len (pRoute p) /\ Forall (fun c => byte_val c < 128) (pRoute p).
Proof.
  intros (H1 & H2 & H3 & H4)%IsValid_None. repeat split; try done.
  apply allowed_ascii in H2. rewrite forallb_forall in H2.
  apply Forall_forall. intros c Hc. apply list_elem_of_In in Hc.
  specialize (H2 c Hc). lia.
Qed.

Lemma IsValid_accepts_invariants r s id :
  route_invariants r -> forallb allowed r = true -> IsValid (mkPath r s id) = None.
Proof.
  intros (H1 & H2 & _ & H3 & _) Ha. apply IsValid_None. cbn [pRoute]. done.
Qed.

End path_claims.

Module perm_claims.
Import scope perm spec.

(** The permissions of the tests of the sources (TestPermAll, TestPermTop). *)
Example TestPermTop :
  Top PermWebsite = Website /\ Top PermStore = Store /\ Top PermDefault = Default /\
  Top 44 = Website /\ Top PermWebsiteReverse = Store /\ Top PermStoreReverse = Store /\
  Has (All 0) Default = true /\ Has (All 0) Website = true /\ Has (All 0) Store = true.
Proof. repeat split; reflexivity. Qed.

(** C8.  [MarshalJSON] returns the bytes null for the zero [Perm], and for
    [All()], where the Default, Website and Store bits are set, the JSON
    array of the three names in the order of the hierarchy. *)
Theorem MarshalJSON_null_and_all :
  MarshalJSON 0 = (b "null", None) /\
  MarshalJSON (All 0)
  = (b "[" ++ quoted (b "Default") ++ b "," ++ quoted (b "Website") ++ b ","
       ++ quoted (b "Store") ++ b "]", None) /\
  All 0 = PermStore /\
  (forall t, Has (All 0) t = true <-> t = Default \/ t = Website \/ t = Store).
Proof.
  repeat split; try reflexivity.
  - destruct t; vm_compute; intros; try discriminate; auto.
  - intros [->| [->| ->]]; reflexivity.
Qed.

(** The two loops over the scope kinds read a permission only through the
    five tests of [Has]. *)
Lemma String_by_flags bits :
  String_ bits =
  Truncate
    (foldl (fun buf t =>
              if Has bits t then (buf ++ Type_String (Type_val t)) ++ [","%char] else buf)
           [] all_types)
    (len (foldl (fun buf t =>
                   if Has bits t then (buf ++ Type_String (Type_val t)) ++ [","%char]
                   else buf) [] all_types) - 1).
Proof. reflexivity. Qed.

(** C10.  For a [Perm] with at least one scope bit set, [String] returns,
    without a panic, the names of the scopes that are set, joined by a comma,
    with no comma at the end; for the zero [Perm] the buffer is empty, it is
    truncated to the length -1, and [String] panics. *)
Theorem String_names_joined :
  (forall bits,
     (exists t, Has bits t = true) ->
     exists out, String_ bits = Some out /\
                 out = join_with (b ",") (set_names bits) /\
                 last out <> Some ","%char) /\
  String_ 0 = None /\
  Truncate [] (len (@nil ascii) - 1) = None.
Proof.
  split; [|split; reflexivity].
  intros bits [t Ht]. rewrite String_by_flags. unfold set_names, all_types.
  cbn [foldl List.filter].
  destruct (Has bits Absent) eqn:E0, (Has bits Default) eqn:E1,
    (Has bits Website) eqn:E2, (Has bits Group) eqn:E3, (Has bits Store) eqn:E4;
    try (destruct t; congruence);
    (eexists; split; [reflexivity|split; [reflexivity|vm_compute; congruence]]).
Qed.

Lemma String_names_joined_witness :
  (exists t, Has (All 0) t = true) /\
  exists out, String_ (All 0) = Some out /\
              out = join_with (b ",") (set_names (All 0)) /\
              last out <> Some ","%char.
Proof.
  assert (H : exists t, Has (All 0) t = true) by (exists Store; reflexivity).
  split; [exact H|]. exact (proj1 String_names_joined (All 0) H).
Defined.

End perm_claims.

Module ccd_claims.
Import scope path spec ccd path_facts.

Lemma Level_whole p : IsValid p = None -> Level p (-1) = Some (pRoute p, None).
Proof. intros Hv. unfold Level. by rewrite Hv. Qed.

(** When the statement can be prepared and the query selects no row, the
    error of [Value] wraps ErrNoRows and is of no kind. *)
Lemma Value_no_row dbs key :
  Read_Stmt dbs = None -> IsValid key = None ->
  List.find (row_matches (FromScope (pScope key)) (pID key) (pRoute key)) (table dbs) = None ->
  Value dbs key = Some (None, Some (ErrWrap sql_ErrNoRows "[ccd] Get.QueryRow")) /\
  Match NotFound (ErrWrap sql_ErrNoRows "[ccd] Get.QueryRow") = false.
Proof.
  intros Hs Hv Hf. unfold Value. rewrite Hs, (Level_whole _ Hv).
  unfold QueryRow_Scan. rewrite Hf. done.
Qed.

(** [Value] answers with the NotFound error only for a row that is there and
    holds NULL. *)
Lemma Value_NotFound_only_NULL dbs key v e :
  Value dbs key = Some (v, Some e) -> e = errKeyNotFound ->
  exists r, List.find (row_matches (FromScope (pScope key)) (pID key) (pRoute key)) (table dbs)
            = Some r /\ r_value r = None.
Proof.
  unfold Value, QueryRow_Scan, errKeyNotFound.
  destruct (Read_Stmt dbs); [intros [= <- <-]; discriminate|].
  destruct (Level key (-1)) as [[pl [err|]]|] eqn:EL; try discriminate.
  { intros [= <- <-]. discriminate. }
  assert (pl = pRoute key) as ->.
  { unfold Level in EL. destruct (IsValid key); [discriminate|].
    cbn in EL. by injection EL as <-. }
  destruct (List.find _ _) as [r|] eqn:Ef.
  - destruct (r_value r) eqn:Ev; [discriminate|]. intros _ _. eauto.
  - intros [= <- <-]. discriminate.
Qed.

(** C4.  On a table without the queried row the SQL backend does not answer
    with a NotFound error: for the key default/0/aa/bb/cc and an empty table
    (or a table that holds other rows only) [Value] returns no value and an
    error that wraps ErrNoRows, which the kind NotFound does not match. *)
Theorem Value_absent_row_not_NotFound :
  let key := mkPath (b "aa/bb/cc") Default 0 in
  let other := mkRow (b "stores") 3 (b "aa/bb/cc") (Some (b "x")) in
  Value (mkDB [] None) key = Some (None, Some (ErrWrap sql_ErrNoRows "[ccd] Get.QueryRow")) /\
  Value (mkDB [other] None) key
  = Some (None, Some (ErrWrap sql_ErrNoRows "[ccd] Get.QueryRow")) /\
  Match NotFound (ErrWrap sql_ErrNoRows "[ccd] Get.QueryRow") = false /\
  Value (mkDB [mkRow (b "default") 0 (b "aa/bb/cc") None] None) key
  = Some (None, Some errKeyNotFound) /\
  Match NotFound errKeyNotFound = true.
Proof. repeat split; reflexivity. Qed.

End ccd_claims.

Module pubsub_facts.
Import scope path config spec.

Section Facts.
Context `{RT : Runtime}.

(** *** The order of a [for range] *)

Lemma elem_of_range {A} (m : gmap Z A) k x : (k, x) ∈ range m <-> m !! k = Some x.
Proof. rewrite (range_perm A m). apply elem_of_map_to_list. Qed.

Lemma NoDup_range_keys {A} (m : gmap Z A) : NoDup (range m).*1.
Proof. rewrite (range_perm A m). apply NoDup_fst_map_to_list. Qed.

(** *** One call *)

Lemma sendMsgRecoverable_returns id sl p e :
  exists err o w,
    sl p (world e) = (o, w) /\
    sendMsgRecoverable id sl p e = (Ret err, mkEnv w (delivered e ++ [mkCall id p o])) /\
    (is_Some err <-> is_reported o = true).
Proof.
  unfold sendMsgRecoverable, MessageConfig.
  destruct (sl p (world e)) as [o w]. destruct o as [[err|]|[recErr|v|]];
    eexists _, _, _; (split; [reflexivity|split; [reflexivity|]]); cbn;
    split; try done; try (intros [? [=]]); eauto.
Qed.

(** *** The calls to the subscribers of one bucket *)

Lemma sendMsgs_loop_returns subs p evict e :
  exists new e',
    sendMsgs_loop subs p evict e = (Ret (evict ++ evicted new), e') /\
    delivered e' = delivered e ++ new /\
    map c_id new = subs.*1 /\
    Forall (fun c => c_path c = p) new.
Proof.
  revert evict e. induction subs as [|[id sub] subs IH]; intros evict e.
  - exists [], e. cbn. unfold ret. by rewrite !app_nil_r.
  - cbn [sendMsgs_loop]. unfold bind.
    destruct (sendMsgRecoverable_returns id sub p e) as (err & o & w & Hsl & -> & Herr).
    destruct (IH (if err is Some _ then evict ++ [id] else evict)
                 (mkEnv w (delivered e ++ [mkCall id p o])))
      as (new & e' & -> & Hd & Hids & Hp).
    exists (mkCall id p o :: new), e'. split; [|split; [|split]].
    + f_equal. f_equal. unfold evicted. cbn [List.filter c_outcome].
      destruct (is_reported o) eqn:Ef.
      * destruct err as [x|]; [|by destruct (proj2 Herr eq_refl) as [? [=]]].
        cbn. by rewrite <- app_assoc.
      * destruct err as [x|]; [|done].
        assert (false = true) by (apply Herr; eauto). congruence.
    + rewrite Hd. cbn. by rewrite <- app_assoc.
    + cbn. by rewrite Hids.
    + by constructor.
Qed.

Lemma sendMsgs_returns (subs : gmap Z MessageReceiver) p e :
  exists new e',
    sendMsgs subs p e = (Ret (evicted new), e') /\
    delivered e' = delivered e ++ new /\
    map c_id new = (range subs).*1 /\
    Forall (fun c => c_path c = p) new.
Proof. apply (sendMsgs_loop_returns (range subs) p [] e). Qed.

Lemma evicted_app l1 l2 : evicted (l1 ++ l2) = evicted l1 ++ evicted l2.
Proof. unfold evicted. by rewrite List.filter_app, map_app. Qed.

(** Every reported failure is a failure; a panic with nil is a failure that
    is not reported. *)
Lemma is_reported_failure o : is_reported o = true -> is_failure o = true.
Proof. by destruct o as [[?|]|[| |]]. Qed.

Lemma evicted_none (l : list call) : failed l = [] -> evicted l = [].
Proof.
  unfold failed, evicted. induction l as [|c l IH]; [done|]. cbn [List.filter].
  destruct (is_reported (c_outcome c)) eqn:Er.
  - by rewrite (is_reported_failure _ Er).
  - destruct (is_failure (c_outcome c)); [done|exact IH].
Qed.

Lemma deliveries_app id l1 l2 :
  deliveries id (l1 ++ l2) = (deliveries id l1 + deliveries id l2)%nat.
Proof. unfold deliveries. by rewrite List.filter_app, length_app. Qed.

(** A log that calls each key of a duplicate-free list once calls [id] once
    if it is a key, and not at all otherwise. *)
Lemma deliveries_NoDup id (new : list call) :
  NoDup (map c_id new) ->
  deliveries id new = if bool_decide (id ∈ map c_id new) then 1%nat else 0%nat.
Proof.
  unfold deliveries. induction new as [|c new IH]; cbn; [done|].
  intros [Hc Hn]%NoDup_cons. specialize (IH Hn).
  destruct (c_id c =? id) eqn:E.
  - apply Z.eqb_eq in E. subst id. cbn. rewrite IH.
    rewrite bool_decide_eq_false_2 by done.
    rewrite bool_decide_eq_true_2 by (apply elem_of_cons; auto). done.
  - apply Z.eqb_neq in E. rewrite IH.
    rewrite (bool_decide_ext (id ∈ c_id c :: map c_id new) (id ∈ map c_id new)); [done|].
    rewrite elem_of_cons. intuition congruence.
Qed.

(** *** One level of the fan-out *)

Lemma lookup_sub_bucket s h subs id :
  subMap s !! h = Some subs -> lookup_sub s h id = subs !! id.
Proof. intros H. unfold lookup_sub. by rewrite H. Qed.

Lemma lookup_sub_no_bucket s h id : subMap s !! h = None -> lookup_sub s h id = None.
Proof. intros H. unfold lookup_sub. by rewrite H. Qed.

Lemma range_keys {A} (m : gmap Z A) k : k ∈ (range m).*1 <-> is_Some (m !! k).
Proof.
  rewrite list_elem_of_fmap. split.
  - intros [[k' x] [-> Hx]]. apply elem_of_range in Hx. eauto.
  - intros [x Hx]. exists (k, x). split; [done|]. by apply elem_of_range.
Qed.

(** [readMapAndSend] returns; it calls every subscriber of the bucket of
    [Hash p level] twice and nobody else, always with [p], and it returns the
    ids of the calls whose failure was reported. *)
Lemma readMapAndSend_returns s p level e :
  exists new e',
    readMapAndSend s p level e = (Ret (evicted new), e') /\
    delivered e' = delivered e ++ new /\
    Forall (fun c => c_path c = p) new /\
    (forall id, deliveries id new
                = if bool_decide (is_Some (lookup_sub s (Hash p level).1 id))
                  then 2%nat else 0%nat) /\
    (forall c, c ∈ new -> is_Some (lookup_sub s (Hash p level).1 (c_id c))).
Proof.
  unfold readMapAndSend. destruct (Hash p level) as [h herr]. cbn [fst].
  destruct (subMap s !! h) as [subs|] eqn:Hb.
  - unfold bind.
    destruct (sendMsgs_returns subs p e) as (new1 & e1 & -> & Hd1 & Hi1 & Hp1).
    destruct (sendMsgs_returns subs p e1) as (new2 & e2 & -> & Hd2 & Hi2 & Hp2).
    exists (new1 ++ new2), e2. unfold ret. rewrite evicted_app.
    split; [done|]. split; [by rewrite Hd2, Hd1, <- app_assoc|].
    split; [by apply Forall_app|]. split.
    + intros id. rewrite deliveries_app, !deliveries_NoDup
        by (rewrite ?Hi1, ?Hi2; apply NoDup_range_keys).
      rewrite Hi1, Hi2, (lookup_sub_bucket _ _ _ _ Hb).
      rewrite (bool_decide_ext _ _ (range_keys subs id)).
      by destruct (bool_decide (is_Some (subs !! id))).
    + intros c Hc. rewrite (lookup_sub_bucket _ _ _ _ Hb). apply range_keys.
      apply elem_of_app in Hc as [Hc|Hc].
      * rewrite <- Hi1. apply list_elem_of_fmap. eauto.
      * rewrite <- Hi2. apply list_elem_of_fmap. eauto.
  - exists [], e. unfold bind, ret. cbn. rewrite app_nil_r.
    repeat split; try done.
    + intros id. rewrite (lookup_sub_no_bucket _ _ _ Hb).
      rewrite bool_decide_eq_false_2; [done|]. by intros [? [=]].
    + intros c Hc. by apply elem_of_nil in Hc.
Qed.

(** *** Unsubscribe *)

Lemma Unsubscribe_fields s x :
  (Unsubscribe s x).2 = None /\
  subAutoInc (Unsubscribe s x).1 = subAutoInc s /\
  closed (Unsubscribe s x).1 = closed s /\
  pubPath (Unsubscribe s x).1 = pubPath s /\
  stop (Unsubscribe s x).1 = stop s /\
  closeErr (Unsubscribe s x).1 = closeErr s /\
  publisher (Unsubscribe s x).1 = publisher s.
Proof.
  unfold Unsubscribe. destruct (list_find _ _) as [[i [path subs]]|]; done.
Qed.

(** After [Unsubscribe x] the id [x] is in no bucket, and every other
    subscription is as before. *)
Lemma Unsubscribe_lookup s x h id :
  wf s ->
  lookup_sub (Unsubscribe s x).1 h id
  = if bool_decide (id = x) then None else lookup_sub s h id.
Proof.
  intros [Hu _]. unfold Unsubscribe.
  destruct (list_find _ _) as [[i [path subs]]|] eqn:Hf.
  - apply list_find_Some in Hf as (Hi & Hx & _). cbn [snd] in Hx.
    apply list_elem_of_lookup_2, elem_of_range in Hi.
    assert (Hpx : is_Some (lookup_sub s path x)) by (by rewrite (lookup_sub_bucket _ _ _ _ Hi)).
    cbn [fst]. unfold lookup_sub at 1. cbn [subMap set_subMap].
    destruct (decide (h = path)) as [->|Hne].
    + rewrite (lookup_sub_bucket _ _ _ _ Hi).
      case_bool_decide as Hsz.
      * rewrite lookup_delete_eq. cbn. apply map_size_empty_iff in Hsz.
        case_bool_decide as Hid; [done|].
        rewrite <- (lookup_delete_ne subs x id) by done. by rewrite Hsz.
      * rewrite lookup_insert_eq. cbn.
        case_bool_decide as Hid; [subst; apply lookup_delete_eq|].
        by apply lookup_delete_ne.
    + assert (Hm : (if bool_decide (size (delete x subs) = 0%nat)
                    then delete path (<[path:=delete x subs]> (subMap s))
                    else <[path:=delete x subs]> (subMap s)) !! h = subMap s !! h).
      { case_bool_decide; rewrite ?lookup_delete_ne, ?lookup_insert_ne by done; done. }
      rewrite Hm. clear Hm. fold (lookup_sub s h id).
      case_bool_decide as Hid; [|done]. subst id.
      destruct (lookup_sub s h x) eqn:E; [|done].
      destruct Hne. apply (Hu h path x); [by rewrite E|done].
  - cbn [fst]. case_bool_decide as Hid; [|done]. subst id.
    apply list_find_None in Hf. rewrite Forall_forall in Hf.
    unfold lookup_sub. destruct (subMap s !! h) as [subs|] eqn:Hb; [|done]. cbn.
    destruct (subs !! x) eqn:E; [|done].
    destruct (Hf (h, subs)); [by apply elem_of_range|]. cbn. by rewrite E.
Qed.

Lemma Unsubscribe_wf s x : wf s -> wf (Unsubscribe s x).1.
Proof.
  intros Hwf. pose proof Hwf as [Hu Hb]. split.
  - intros h1 h2 id. rewrite !Unsubscribe_lookup by done.
    case_bool_decide; [by intros [? [=]]|]. apply Hu.
  - intros h id. rewrite Unsubscribe_lookup by done.
    destruct (Unsubscribe_fields s x) as (_ & -> & _).
    case_bool_decide; [by intros [? [=]]|]. apply Hb.
Qed.

(** The evictions at the end of an event. *)
Lemma evict_all s (evict : list Z) :
  wf s ->
  let s' := foldl (fun s e => (Unsubscribe s e).1) s evict in
  wf s' /\
  (forall h id, lookup_sub s' h id
                = if bool_decide (id ∈ evict) then None else lookup_sub s h id) /\
  subAutoInc s' = subAutoInc s /\ closed s' = closed s /\ pubPath s' = pubPath s /\
  stop s' = stop s /\ closeErr s' = closeErr s /\ publisher s' = publisher s.
Proof.
  revert s. induction evict as [|x evict IH]; intros s Hwf; cbn.
  - repeat split; try apply Hwf; try done.
  - destruct (IH _ (Unsubscribe_wf s x Hwf)) as (Hw & Hl & H1 & H2 & H3 & H4 & H5 & H6).
    destruct (Unsubscribe_fields s x) as (_ & F1 & F2 & F3 & F4 & F5 & F6).
    split; [done|]. split; [|by rewrite H1, H2, H3, H4, H5, H6].
    intros h id. rewrite Hl, Unsubscribe_lookup by done.
    destruct (decide (id = x)) as [->|Hne].
    + rewrite (bool_decide_eq_true_2 (x ∈ x :: evict)) by (apply elem_of_cons; auto).
      rewrite (bool_decide_eq_true_2 (x = x)) by done.
      by destruct (bool_decide (x ∈ evict)).
    + rewrite (bool_decide_eq_false_2 (id = x)) by done.
      rewrite (bool_decide_ext (id ∈ x :: evict) (id ∈ evict)); [done|].
      rewrite elem_of_cons. intuition.
Qed.

(** *** One event *)

Lemma matching_levels_unfold s p id :
  matching_levels s p id
  = ((if bool_decide (is_Some (lookup_sub s (Hash p 1).1 id)) then 1 else 0) +
     ((if bool_decide (is_Some (lookup_sub s (Hash p 2).1 id)) then 1 else 0) +
      (if bool_decide (is_Some (lookup_sub s (Hash p (-1)).1 id)) then 1 else 0)))%nat.
Proof.
  unfold matching_levels, fanout_levels. cbn [List.filter].
  repeat destruct (bool_decide _); reflexivity.
Qed.

Lemma lookup_sub_empty s h id : size (subMap s) = 0%nat -> lookup_sub s h id = None.
Proof.
  intros H%map_size_empty_iff. unfold lookup_sub. by rewrite H, lookup_empty.
Qed.

(** The body of the loop returns.  It calls each subscriber twice for every
    level at which it sits in the bucket of the path, always with the path
    of the event, and it unsubscribes the ids of the calls whose failure
    was reported. *)
Lemma publish_event_returns s p e :
  exists new e',
    publish_event s p e
    = (Ret (foldl (fun s x => (Unsubscribe s x).1) s (evicted new)), e') /\
    delivered e' = delivered e ++ new /\
    Forall (fun c => c_path c = p) new /\
    (forall id, deliveries id new = (2 * matching_levels s p id)%nat) /\
    (forall c, c ∈ new -> subscribed s (c_id c)).
Proof.
  unfold publish_event. case_bool_decide as Hsz.
  - exists [], e. unfold ret.
    split; [done|]. split; [by rewrite app_nil_r|]. split; [done|]. split.
    + intros id. rewrite matching_levels_unfold, !lookup_sub_empty by done.
      rewrite !bool_decide_eq_false_2 by (by intros [? [=]]). done.
    + intros c Hc. by apply elem_of_nil in Hc.
  - unfold bind.
    destruct (readMapAndSend_returns s p 1 e) as (n1 & e1 & -> & Hd1 & Hp1 & Hc1 & Hs1).
    destruct (readMapAndSend_returns s p 2 e1) as (n2 & e2 & -> & Hd2 & Hp2 & Hc2 & Hs2).
    destruct (readMapAndSend_returns s p (-1) e2) as (n3 & e3 & -> & Hd3 & Hp3 & Hc3 & Hs3).
    exists ((n1 ++ n2) ++ n3), e3. unfold ret. rewrite !evicted_app.
    split; [done|]. split; [by rewrite Hd3, Hd2, Hd1, <- !app_assoc|].
    split; [by repeat apply Forall_app_2|]. split.
    + intros id. rewrite !deliveries_app, Hc1, Hc2, Hc3, matching_levels_unfold.
      repeat destruct (bool_decide _); reflexivity.
    + intros c Hc. rewrite !elem_of_app in Hc.
      destruct Hc as [[Hc|Hc]|Hc]; eexists; eauto.
Qed.

Lemma new_calls_app e e' new : delivered e' = delivered e ++ new -> new_calls e e' = new.
Proof. intros H. unfold new_calls. by rewrite H, drop_app_length. Qed.

(** *** Subscribe *)

Lemma Subscribe_empty s p mr :
  pRoute p = [] -> exists err, Subscribe s p mr = (s, (0, Some err)) /\ Match Empty err = true.
Proof. intros H. unfold Subscribe. rewrite H. cbn. eauto. Qed.

Lemma Subscribe_lookup s p mr h id :
  pRoute p ≠ [] ->
  lookup_sub (Subscribe s p mr).1 h id
  = if bool_decide (h = Hash32 p /\ id = subAutoInc s + 1) then Some mr
    else lookup_sub s h id.
Proof.
  intros Hne. unfold Subscribe. rewrite (path_facts.Route_IsEmpty_false _ Hne).
  cbn [fst]. unfold lookup_sub. cbn [subMap].
  destruct (decide (h = Hash32 p)) as [->|Hh].
  - rewrite lookup_insert_eq. cbn.
    destruct (decide (id = subAutoInc s + 1)) as [->|Hi].
    + rewrite lookup_insert_eq. by rewrite bool_decide_eq_true_2.
    + rewrite lookup_insert_ne by done.
      rewrite bool_decide_eq_false_2 by tauto.
      by destruct (subMap s !! Hash32 p).
  - rewrite lookup_insert_ne by done. by rewrite bool_decide_eq_false_2 by tauto.
Qed.

Lemma Subscribe_wf s p mr : wf s -> wf (Subscribe s p mr).1.
Proof.
  intros [Hu Hb]. destruct (decide (pRoute p = [])) as [He|Hne].
  { destruct (Subscribe_empty s p mr He) as (err & -> & _). done. }
  split.
  - intros h1 h2 id. rewrite !Subscribe_lookup by done.
    repeat case_bool_decide.
    + intuition congruence.
    + intros _ Hs. apply Hb in Hs. lia.
    + intros Hs _. apply Hb in Hs. lia.
    + apply Hu.
  - intros h id. rewrite Subscribe_lookup by done.
    assert (Hinc : subAutoInc (Subscribe s p mr).1 = subAutoInc s + 1).
    { unfold Subscribe. by rewrite (path_facts.Route_IsEmpty_false _ Hne). }
    rewrite Hinc. case_bool_decide.
    + lia.
    + intros Hs%Hb. lia.
Qed.

Lemma wf_new : wf (go_publish newPubSub).
Proof.
  split; intros *; unfold lookup_sub; cbn; rewrite lookup_empty; by intros [? [=]].
Qed.

(** *** The life cycle *)

Lemma wf_same s s' :
  subMap s' = subMap s -> subAutoInc s' = subAutoInc s -> wf s -> wf s'.
Proof. unfold wf, lookup_sub. intros -> ->. done. Qed.

Lemma Subscribe_fields s p mr :
  closed (Subscribe s p mr).1 = closed s /\ pubPath (Subscribe s p mr).1 = pubPath s /\
  stop (Subscribe s p mr).1 = stop s /\ closeErr (Subscribe s p mr).1 = closeErr s /\
  publisher (Subscribe s p mr).1 = publisher s.
Proof. unfold Subscribe. by destruct (Route_IsEmpty _). Qed.

Lemma evict_fields s (evict : list Z) :
  let s' := foldl (fun s e => (Unsubscribe s e).1) s evict in
  closed s' = closed s /\ pubPath s' = pubPath s /\ stop s' = stop s /\
  closeErr s' = closeErr s /\ publisher s' = publisher s.
Proof.
  revert s. induction evict as [|x evict IH]; intros s; cbn; [done|].
  destruct (IH (Unsubscribe s x).1) as (-> & -> & -> & -> & ->).
  destruct (Unsubscribe_fields s x) as (_ & _ & -> & -> & -> & -> & ->). done.
Qed.

Lemma publish_event_fields s p e s' e' :
  publish_event s p e = (Ret s', e') ->
  closed s' = closed s /\ pubPath s' = pubPath s /\ stop s' = stop s /\
  closeErr s' = closeErr s /\ publisher s' = publisher s /\ (wf s -> wf s').
Proof.
  intros Hp. destruct (publish_event_returns s p e) as (new & e1 & Heq & _).
  rewrite Heq in Hp. injection Hp as <- <-.
  destruct (evict_fields s (evicted new)) as (? & ? & ? & ? & ?).
  do 5 (split; [done|]). intros Hwf. by apply evict_all.
Qed.

(** The goroutine always gets back to its select: a delivery returns. *)
Lemma deliver_returns s e :
  exists s' e',
    deliver s e = (Ret s', e') /\
    closed s' = closed s /\ pubPath s' = pubPath s /\ stop s' = stop s /\
    closeErr s' = closeErr s /\
    publisher s' = (match publisher s with Delivering _ => Waiting | g => g end) /\
    (wf s -> wf s') /\
    match in_flight s with
    | Some p => e' = (publish_event s p e).2
    | None => e' = e /\ s' = s
    end.
Proof.
  unfold deliver, in_flight. destruct (publisher s) as [| |p| |] eqn:Hg;
    try (exists s, e; unfold ret; rewrite ?Hg; split; [done|]; do 5 (split; [done|]);
         split; done).
  unfold bind. destruct (publish_event_returns s p e) as (new & e1 & Heq & _).
  rewrite Heq. cbn [snd].
  destruct (publish_event_fields _ _ _ _ _ Heq) as (? & ? & ? & ? & ? & Hwf).
  eexists _, e1. unfold ret. split; [reflexivity|]. cbn.
  do 5 (split; [done|]). split; [|done].
  intros Hs. apply Hwf in Hs. revert Hs. by apply wf_same.
Qed.

Lemma Close_alive s e :
  alive s ->
  exists s1 e1,
    Close (Some s) e = (Ret None, Some s1, e1) /\ shut s1 /\
    e1 = (deliver (set_closed s true) e).2 /\ (wf s -> wf s1).
Proof.
  intros (Hc & Hp & Hs & He & Hg). unfold Close. rewrite Hc. cbn [stop set_closed].
  rewrite Hs.
  destruct (deliver_returns (set_closed s true) e)
    as (s' & e' & Hd & Hc' & Hp' & Hs' & He' & Hg' & Hwf & _).
  rewrite Hd. cbn [snd]. cbn [publisher pubPath stop closeErr closed set_closed] in *.
  assert (Hw : publisher s' = Waiting).
  { rewrite Hg'. destruct Hg as [->| [p ->]]; done. }
  rewrite Hw. rewrite Hp in Hp'. rewrite Hs in Hs'. rewrite He in He'.
  assert (Hwf' : wf s -> wf s') by (intros Hs0; apply Hwf; revert Hs0; by apply wf_same).
  clear Hwf Hd Hg'. destruct s' as [m inc pp st ce cl g].
  cbn in Hc', Hp', Hs', He', Hw. subst pp st ce g cl. cbn.
  eexists _, e'. split; [reflexivity|]. split; [done|]. split; [done|].
  intros Hs0. apply Hwf' in Hs0. revert Hs0. by apply wf_same.
Qed.

Lemma Close_shut s e :
  shut s ->
  exists err, Close (Some s) e = (Ret (Some err), Some s, e) /\
              Match AlreadyClosed err = true.
Proof. intros (Hc & _). unfold Close. rewrite Hc. eauto. Qed.

Lemma sendMsg_shut s p e : shut s -> sendMsg s p e = (Ret s, e).
Proof. intros (Hc & _). unfold sendMsg. by rewrite Hc. Qed.

(** On a bus that is alive [sendMsg] returns, with the path in flight. *)
Lemma sendMsg_alive s p e :
  alive s ->
  exists s1 e1,
    deliver s e = (Ret s1, e1) /\
    sendMsg s p e = (Ret (set_publisher s1 (Delivering p)), e1).
Proof.
  intros (Hc & Hp & _ & _ & Hg). unfold sendMsg. rewrite Hc, Hp. cbn [negb].
  destruct (deliver_returns s e) as (s' & e' & Hd & _ & _ & _ & _ & Hg' & _).
  exists s', e'. split; [done|]. unfold bind. rewrite Hd.
  assert (Hw : publisher s' = Waiting).
  { rewrite Hg'. destruct Hg as [->| [q ->]]; done. }
  by rewrite Hw.
Qed.

Lemma lifecycle_same s s' :
  closed s' = closed s -> pubPath s' = pubPath s -> stop s' = stop s ->
  closeErr s' = closeErr s -> publisher s' = publisher s ->
  alive s \/ shut s -> alive s' \/ shut s'.
Proof. unfold alive, shut. intros -> -> -> -> ->. done. Qed.

Lemma deliver_lifecycle s e s' e' :
  deliver s e = (Ret s', e') -> alive s \/ shut s -> alive s' \/ shut s'.
Proof.
  intros Hd. destruct (deliver_returns s e) as (s1 & e1 & Heq & Hc & Hp & Hs & He & Hg & _).
  rewrite Heq in Hd. injection Hd as <- <-.
  unfold alive, shut. rewrite Hc, Hp, Hs, He, Hg.
  intros [(? & ? & ? & ? & [Hw| [p Hw]])|(? & ? & ? & ? & Hw)]; rewrite Hw; auto 10.
Qed.

(** A bus that is used through its interface is well formed, and it is
    either alive or shut. *)
Lemma reachable_invariant s : reachable s -> wf s /\ (alive s \/ shut s).
Proof.
  unfold reachable. intros H.
  apply (rtc_ind_r (R := step) (fun s => wf s /\ (alive s \/ shut s)) (go_publish newPubSub));
    [|clear s H|exact H].
  { split; [apply wf_new|]. left. unfold alive. cbn. auto 10. }
  intros s s' _ Hst [Hwf Hl].
  destruct Hst as [s p mr|s id|s p e s' e' Hsend|s e s' e' Hdel|s e r s' e' Hcl].
  - split; [by apply Subscribe_wf|].
    destruct (Subscribe_fields s p mr) as (? & ? & ? & ? & ?).
    by apply (lifecycle_same s).
  - split; [by apply Unsubscribe_wf|].
    destruct (Unsubscribe_fields s id) as (_ & _ & ? & ? & ? & ? & ?).
    by apply (lifecycle_same s).
  - destruct Hl as [Ha|Hs].
    + destruct (sendMsg_alive s p e Ha) as (s1 & e1 & Hd & Heq).
      rewrite Heq in Hsend. injection Hsend as <- <-.
      destruct (deliver_returns s e) as (s2 & e2 & Hd2 & Hc & Hp & Hs & He & Hg & Hw & _).
      rewrite Hd2 in Hd. injection Hd as <- <-.
      split; [apply (wf_same s2); auto|].
      left. destruct Ha as (? & ? & ? & ? & _). unfold alive. cbn.
      rewrite Hc, Hp, Hs, He. eauto 10.
    + rewrite sendMsg_shut in Hsend by done. injection Hsend as <- <-. auto.
  - split; [|by apply (deliver_lifecycle s e s' e')].
    destruct (deliver_returns s e) as (s2 & e2 & Hd2 & _ & _ & _ & _ & _ & Hw & _).
    rewrite Hd2 in Hdel. injection Hdel as <- <-. auto.
  - destruct Hl as [Ha|Hs].
    + destruct (Close_alive s e Ha) as (s1 & e1 & Heq & Hsh & _ & Hw).
      rewrite Heq in Hcl. injection Hcl as <- <- <-. auto.
    + destruct (Close_shut s e Hs) as (err & Heq & _).
      rewrite Heq in Hcl. injection Hcl as <- <- <-. auto.
Qed.

End Facts.
End pubsub_facts.

Module pubsub_claims.
Import scope path config spec pubsub_facts.

Lemma deliveries_pos id (new : list call) :
  (0 < deliveries id new)%nat -> exists c, c ∈ new /\ c_id c = id.
Proof.
  unfold deliveries. induction new as [|c new IH]; cbn; [lia|].
  destruct (c_id c =? id) eqn:E.
  - intros _. exists c. split; [apply elem_of_cons; auto|by apply Z.eqb_eq].
  - intros [c' [Hc Hid]]%IH. exists c'. split; [apply elem_of_cons; auto|done].
Qed.

Lemma evicted_elem (new : list call) c :
  c ∈ new -> is_reported (c_outcome c) = true -> c_id c ∈ evicted new.
Proof.
  intros Hc Hf. unfold evicted. apply list_elem_of_fmap. exists c. split; [done|].
  apply list_elem_of_In, List.filter_In. split; [by apply list_elem_of_In|done].
Qed.

(** C1.  The delivery of one path looks up the same hash twice at each of
    the levels 1, 2 and -1, so a subscriber is called twice for every level
    at which it sits in the bucket of the path: never exactly once.  With the
    FNV hashes, a subscriber of the route system gets the path
    system/smtp/host twice and the path other/kk/vv not at all. *)
Theorem publish_delivers_twice :
  (forall (RT : Runtime) (s : pubSub) (p : Path) (e : env),
     exists new s' e',
       publish_event s p e = (Ret s', e') /\
       delivered e' = delivered e ++ new /\
       forall id, deliveries id new = (2 * matching_levels s p id)%nat /\
                  deliveries id new <> 1%nat) /\
  deliveries 1 (delivered (send_and_deliver bus1 smtp_host env0).2) = 2%nat /\
  deliveries 1 (delivered (send_and_deliver bus1 other_path env0).2) = 0%nat.
Proof.
  split; [|split].
  - intros RT s p e.
    destruct (publish_event_returns s p e) as (new & e' & Heq & Hd & _ & Hc & _).
    eexists new, _, e'. split; [exact Heq|]. split; [exact Hd|].
    intros id. rewrite Hc. split; [done|lia].
  - vm_compute. reflexivity.
  - vm_compute. reflexivity.
Qed.

(** In a well-formed bus the delivery of an event returns, whatever the
    receivers do.  Every subscriber of a bucket that the path is fanned out
    to is called with the path; a subscriber whose call returned an error or
    panicked with a value other than nil is in no bucket afterwards, so the
    next event does not reach it; every other subscription stays as it was;
    the goroutine that holds the path is back at its select after the
    delivery; and [sendMsg] returns to the publisher without an error or a
    panic. *)
Lemma reported_failure_evicted `{RT : Runtime} (s : pubSub) (p : Path) (e : env) :
  wf s ->
  exists new s' e',
    publish_event s p e = (Ret s', e') /\
    delivered e' = delivered e ++ new /\
    (forall level id,
        level ∈ fanout_levels -> is_Some (lookup_sub s (Hash p level).1 id) ->
        exists c, c ∈ new /\ c_id c = id /\ c_path c = p) /\
    (forall c, c ∈ new -> is_reported (c_outcome c) = true -> ~ subscribed s' (c_id c)) /\
    (forall c p2 e2 c2,
        c ∈ new -> is_reported (c_outcome c) = true ->
        c2 ∈ new_calls e2 (publish_event s' p2 e2).2 -> c_id c2 <> c_id c) /\
    (forall h id, id ∉ evicted new -> lookup_sub s' h id = lookup_sub s h id) /\
    wf s' /\
    (publisher s = Delivering p -> deliver s e = (Ret (set_publisher s' Waiting), e')) /\
    (alive s -> forall q, exists s1 e1, sendMsg s q e = (Ret s1, e1)).
Proof.
  intros Hwf.
  destruct (publish_event_returns s p e) as (new & e' & Heq & Hd & Hp & Hc & Hs).
  destruct (evict_all s (evicted new) Hwf) as (Hwf' & Hl & _ & F1 & F2 & F3 & F4 & F5).
  eexists new, _, e'. split; [exact Heq|]. split; [exact Hd|].
  assert (Hgone : forall c, c ∈ new -> is_reported (c_outcome c) = true ->
                            ~ subscribed
                                (foldl (fun s x => (Unsubscribe s x).1) s (evicted new))
                                (c_id c)).
  { intros c Hin Hf [h Hsub]. rewrite Hl in Hsub.
    rewrite bool_decide_eq_true_2 in Hsub by (by apply evicted_elem).
    by destruct Hsub as [? [=]]. }
  split; [|split; [exact Hgone|split; [|split; [|split; [exact Hwf'|split]]]]].
  - intros level id Hlev Hsub.
    assert (Hpos : (0 < deliveries id new)%nat).
    { rewrite Hc, matching_levels_unfold. unfold fanout_levels in Hlev.
      rewrite !elem_of_cons in Hlev.
      destruct Hlev as [->| [->| [->|Hn]]]; [..|by apply elem_of_nil in Hn];
        rewrite (bool_decide_eq_true_2 _ Hsub); lia. }
    destruct (deliveries_pos _ _ Hpos) as (c & Hin & Hid).
    exists c. split; [done|]. split; [done|].
    rewrite Forall_forall in Hp. by apply Hp.
  - intros c p2 e2 c2 Hin Hf Hin2 Hid.
    destruct (publish_event_returns
                (foldl (fun s x => (Unsubscribe s x).1) s (evicted new)) p2 e2)
      as (new2 & e2' & Heq2 & Hd2 & _ & _ & Hs2).
    rewrite Heq2 in Hin2. cbn [snd] in Hin2.
    rewrite (new_calls_app _ _ _ Hd2) in Hin2.
    apply (Hgone c Hin Hf). rewrite <- Hid. by apply Hs2.
  - intros h id Hni. rewrite Hl. by rewrite bool_decide_eq_false_2.
  - intros Hg. unfold deliver, bind. by rewrite Hg, Heq.
  - intros Ha q. destruct (sendMsg_alive s q e Ha) as (s1 & e1 & _ & Hsend). eauto.
Qed.

Lemma not_evicted (new : list call) id :
  (forall c, c ∈ new -> c_id c = id -> is_reported (c_outcome c) = false) ->
  id ∉ evicted new.
Proof.
  intros Hn Hin. unfold evicted in Hin.
  apply list_elem_of_fmap in Hin as (c & Hid & Hc).
  apply list_elem_of_In, List.filter_In in Hc as [Hc Hr].
  apply list_elem_of_In in Hc. rewrite (Hn c Hc) in Hr; [discriminate|done].
Qed.

(** C5.  The delivery of an event returns, whatever the receivers do, and
    a subscriber whose call returned an error or panicked with a value other
    than nil is in no bucket afterwards.  But a subscriber that panics with
    nil is not removed: [recover()] returns nil, the deferred function takes
    it for no panic, and the subscriber, which has failed, stays in its
    bucket and is called again for the next event.  Run on the bus with
    subscriber 1 on system, which accepts, and subscriber 2 on system/smtp,
    which panics with nil. *)
Theorem nil_panic_not_evicted :
  (forall (RT : Runtime) (s : pubSub) (p : Path) (e : env),
     wf s ->
     exists new s' e',
       publish_event s p e = (Ret s', e') /\
       delivered e' = delivered e ++ new /\
       (forall level id,
           level ∈ fanout_levels -> is_Some (lookup_sub s (Hash p level).1 id) ->
           exists c, c ∈ new /\ c_id c = id /\ c_path c = p) /\
       (forall c, c ∈ new -> is_reported (c_outcome c) = true ->
                  ~ subscribed s' (c_id c)) /\
       (forall id,
           (forall c, c ∈ new -> c_id c = id ->
                      c_outcome c = Returns None \/ c_outcome c = Panics PanicNil) ->
           forall h, lookup_sub s' h id = lookup_sub s h id) /\
       wf s' /\
       (publisher s = Delivering p -> deliver s e = (Ret (set_publisher s' Waiting), e')) /\
       (alive s -> forall q, exists s1 e1, sendMsg s q e = (Ret s1, e1))) /\
  is_failure (Panics PanicNil) = true /\
  wf bus3 /\
  match send_and_deliver bus3 smtp_host env0 with
  | (Ret s', e') =>
      map (fun c => (c_id c, c_outcome c)) (delivered e')
      = [(1, Returns None); (1, Returns None);
         (2, Panics PanicNil); (2, Panics PanicNil)] /\
      failed (delivered e') = [2; 2] /\
      evicted (delivered e') = [] /\
      subMap s' = subMap bus3 /\
      is_Some (lookup_sub s' (Hash32 (mkPath (b "system/smtp") Default 0)) 2) /\
      deliveries 2 (new_calls e' (send_and_deliver s' smtp_host e').2) = 2%nat
  | _ => False
  end.
Proof.
  split; [|split; [reflexivity|split]].
  - intros RT s p e Hwf.
    destruct (reported_failure_evicted s p e Hwf)
      as (new & s' & e' & Heq & Hd & Hcall & Hgone & _ & Hkeep & Hwf' & Hdel & Hsend).
    exists new, s', e'. do 4 (split; [done|]). split; [|done].
    intros id Hout h. apply Hkeep, not_evicted.
    intros c Hc Hid. by destruct (Hout c Hc Hid) as [->| ->].
  - unfold bus3, bus1. do 2 apply Subscribe_wf. apply wf_new.
  - vm_compute. repeat split; try reflexivity. by eexists.
Qed.

(** The bus with a subscriber that panics with a value, run: the panicking
    subscriber 2 is called and removed, subscriber 1 is called and stays. *)
Example eviction_run :
  map c_id (delivered (send_and_deliver bus2 smtp_host env0).2) = [1; 1; 2; 2] /\
  evicted (delivered (send_and_deliver bus2 smtp_host env0).2) = [2; 2] /\
  match (send_and_deliver bus2 smtp_host env0).1 with
  | Ret s' => map (fun x => (map_to_list x.2).*1) (map_to_list (subMap s')) = [[1]]
  | _ => False
  end.
Proof. vm_compute. repeat split; reflexivity. Qed.

End pubsub_claims.

Module lifecycle_claims.
Import scope path config spec pubsub_facts.

(** C7.  On a bus that is alive (not closed, its channels open, the
    goroutine of [publish] parked at its select or busy with a path), the
    first [Close] waits for the goroutine to deliver the path it holds, meets
    it on [stop], takes the nil that it hands over [closeErr] before it
    returns, and returns nil; every later [Close] returns an error of kind
    AlreadyClosed and changes nothing; after [Close], [sendMsg] returns at
    once, hands no path over and calls nobody; and on every state that a bus
    reaches through its interface [Close] returns: it neither panics nor
    blocks. *)
Theorem Close_once_then_AlreadyClosed `{RT : Runtime} (s : pubSub) (e : env) :
  alive s ->
  exists s1 e1,
    Close (Some s) e = (Ret None, Some s1, e1) /\
    match in_flight s with
    | Some p => e1 = (publish_event (set_closed s true) p e).2
    | None => e1 = e
    end /\
    publisher s1 = Stopped /\ shut s1 /\
    (forall e2, exists err, Close (Some s1) e2 = (Ret (Some err), Some s1, e2) /\
                            Match AlreadyClosed err = true) /\
    (forall p e2, sendMsg s1 p e2 = (Ret s1, e2)) /\
    (forall s' e2, reachable s' -> exists r, (Close (Some s') e2).1.1 = Ret r).
Proof.
  intros Ha. destruct (Close_alive s e Ha) as (s1 & e1 & Heq & Hsh & He1 & _).
  exists s1, e1. split; [exact Heq|]. split; [|split; [apply Hsh|split; [exact Hsh|]]].
  - destruct (deliver_returns (set_closed s true) e) as (s2 & e2 & Hd & _ & _ & _ & _ & _ & _ & Hf).
    rewrite Hd in He1. cbn [snd] in He1. subst e2.
    unfold in_flight in *. cbn [publisher set_closed] in Hf.
    destruct (publisher s); try apply Hf.
  - split; [|split].
    + intros e2. by apply Close_shut.
    + intros p e2. by apply sendMsg_shut.
    + intros s' e2 [_ [Ha'|Hs']]%reachable_invariant.
      * destruct (Close_alive s' e2 Ha') as (? & ? & -> & _). eauto.
      * destruct (Close_shut s' e2 Hs') as (? & -> & _). eauto.
Qed.

Lemma Close_once_then_AlreadyClosed_witness :
  alive (set_publisher bus2 (Delivering smtp_host)) /\
  exists s1 e1,
    Close (Some (set_publisher bus2 (Delivering smtp_host))) env0 = (Ret None, Some s1, e1) /\
    match in_flight (set_publisher bus2 (Delivering smtp_host)) with
    | Some p => e1 = (publish_event
                        (set_closed (set_publisher bus2 (Delivering smtp_host)) true) p env0).2
    | None => e1 = env0
    end /\
    publisher s1 = Stopped /\ shut s1 /\
    (forall e2, exists err, Close (Some s1) e2 = (Ret (Some err), Some s1, e2) /\
                            Match AlreadyClosed err = true) /\
    (forall p e2, sendMsg s1 p e2 = (Ret s1, e2)) /\
    (forall s' e2, reachable s' -> exists r, (Close (Some s') e2).1.1 = Ret r).
Proof.
  assert (Ha : alive (set_publisher bus2 (Delivering smtp_host))).
  { unfold alive. cbn. eauto 10. }
  split; [exact Ha|]. exact (Close_once_then_AlreadyClosed _ env0 Ha).
Defined.

(** The same, run: [sendMsg] leaves the path in flight and calls nobody;
    [Close] then has it delivered (subscribers 1 and 2, twice each) and
    returns nil, and the next [Close] returns the AlreadyClosed error. *)
Example Close_run :
  match sendMsg bus2 smtp_host env0 with
  | (Ret s, e) =>
      in_flight s = Some smtp_host /\ delivered e = [] /\
      match Close (Some s) e with
      | (Ret None, Some s1, e1) =>
          map c_id (delivered e1) = [1; 1; 2; 2] /\
          (publisher s1, pubPath s1, stop s1, closeErr s1, closed s1)
          = (Stopped, Closed, Closed, Closed, true) /\
          (Close (Some s1) e1).1.1
          = Ret (Some (ErrKind AlreadyClosed "[config] PubSub Service already closed"))
      | _ => False
      end
  | _ => False
  end.
Proof. vm_compute. repeat split; reflexivity. Qed.

(** Outside of that: a nil bus closes to nil every time, and a bus whose
    goroutine was never started blocks in [Close]. *)
Example Close_edge_cases `{RT : Runtime} (e : env) :
  Close None e = (Ret None, None, e) /\ (Close (Some newPubSub) e).1.1 = Block.
Proof. split; reflexivity. Qed.

End lifecycle_claims.

(** * Further properties of the code *)

Module path_extras.
Import scope path spec spec_more path_facts level_facts strconv_facts fq_facts.

Lemma allowed_allowed_byte c : allowed c = true <-> allowed_byte c.
Proof.
  unfold allowed_byte.
  destruct c as [[] [] [] [] [] [] [] []]; vm_compute; split;
    first [ discriminate | reflexivity | intuition (congruence || lia) | idtac ];
    try (intros _; first [ left; split; discriminate
                         | right; left; split; discriminate
                         | right; right; left; split; discriminate
                         | right; right; right; left; reflexivity
                         | right; right; right; right; reflexivity ]);
    intros [[H1 H2]| [[H1 H2]| [[H1 H2]| [H|H]]]];
    try discriminate; try (exfalso; apply H1; reflexivity); try (exfalso; apply H2; reflexivity).
Qed.

(** X1.  [IsValid] returns nil exactly for the routes that are not empty,
    hold only letters, digits, underscores and separators, have exactly two
    separators and are at least eight bytes long. *)
Theorem IsValid_accepts_exactly (p : Path) :
  IsValid p = None <->
  pRoute p ≠ [] /\ Forall allowed_byte (pRoute p) /\
  Count (pRoute p) rSeparator = 2 /\ 8 <= len (pRoute p).
Proof.
  rewrite IsValid_None. unfold Levels.
  assert (H : forallb allowed (pRoute p) = true <-> Forall allowed_byte (pRoute p)).
  { induction (pRoute p) as [|c r IH]; cbn [forallb].
    - split; [constructor|done].
    - rewrite andb_true_iff, Forall_cons, IH, allowed_allowed_byte. done. }
  rewrite H. replace (3 - 1) with 2 by lia. done.
Qed.

(** The loop of [IsValid] stops with the error of a byte that is not
    allowed as soon as it meets one. *)
Lemma IsValid_loop_NotAllowed rest sc ln :
  IsValid_loop rest sc ln = Some ErrNotAllowed <-> forallb allowed rest = false.
Proof.
  revert sc ln. induction rest as [|c rest IH]; intros sc ln.
  - cbn. destruct (negb (sc =? Levels - 1) || (ln <? 8)); split; discriminate.
  - cbn [IsValid_loop forallb]. unfold allowed at 1.
    destruct (byte_val c <? RuneSelf); cbn [andb]; [|done].
    destruct (classify (byte_val c)) as [ok sp]. cbn [fst].
    destruct ok; cbn [negb andb]; [apply IH|done].
Qed.

Lemma IsValid_loop_cases rest sc ln :
  IsValid_loop rest sc ln = None \/
  IsValid_loop rest sc ln = Some ErrNotAllowed \/
  IsValid_loop rest sc ln = Some ErrIncorrectPath.
Proof.
  revert sc ln. induction rest as [|c rest IH]; intros sc ln; cbn [IsValid_loop].
  - destruct (negb (sc =? Levels - 1) || (ln <? 8)); auto.
  - destruct (byte_val c <? RuneSelf); [|auto].
    destruct (classify (byte_val c)) as [ok sp]. destruct ok; cbn [negb]; auto.
Qed.

Lemma IsValid_loop_Incorrect rest sc ln :
  IsValid_loop rest sc ln = Some ErrIncorrectPath <->
  forallb allowed rest = true /\
  (sc + Count rest rSeparator ≠ Levels - 1 \/ ln + len rest < 8).
Proof.
  pose proof (IsValid_loop_None rest sc ln) as HN.
  pose proof (IsValid_loop_NotAllowed rest sc ln) as HA.
  destruct (forallb allowed rest) eqn:Ea.
  - destruct (IsValid_loop_cases rest sc ln) as [H| [H|H]].
    + rewrite H. split; [discriminate|]. apply HN in H. intros [_ [?|?]]; lia.
    + apply HA in H. discriminate.
    + split; [|done]. intros _. split; [done|].
      destruct (decide (sc + Count rest rSeparator = Levels - 1)) as [E1|]; [|auto].
      destruct (decide (8 <= ln + len rest)) as [E2|]; [|right; lia].
      rewrite (proj2 HN) in H by done. discriminate.
  - rewrite (proj2 HA eq_refl). split; [discriminate|]. intros [? _]. discriminate.
Qed.

(** X2.  The error of [IsValid] tells the first check that fails: the error
    of the empty route for no bytes; of invalid bytes for bytes that are not
    UTF-8; of a byte that is not allowed for a route that is UTF-8 and holds
    a byte besides letters, digits, underscore and separator; and the error
    of an incorrect path for allowed bytes with a number of separators other
    than two or with fewer than eight bytes. *)
Theorem IsValid_error_of_first_failing_check (p : Path) :
  (IsValid p = Some ErrRouteEmpty <-> pRoute p = []) /\
  (IsValid p = Some ErrRouteInvalidBytes <->
   pRoute p ≠ [] /\ utf8_Valid (pRoute p) = false) /\
  (IsValid p = Some ErrNotAllowed <->
   pRoute p ≠ [] /\ utf8_Valid (pRoute p) = true /\ ~ Forall allowed_byte (pRoute p)) /\
  (IsValid p = Some ErrIncorrectPath <->
   pRoute p ≠ [] /\ Forall allowed_byte (pRoute p) /\
   (Count (pRoute p) rSeparator ≠ 2 \/ len (pRoute p) < 8)).
Proof.
  assert (Hf : forall r, forallb allowed r = true <-> Forall allowed_byte r).
  { induction r as [|c r IH]; cbn [forallb].
    - split; [constructor|done].
    - rewrite andb_true_iff, Forall_cons, IH, allowed_allowed_byte. done. }
  unfold IsValid, Route_Valid. destruct p as [r sc id]. cbn [pRoute].
  destruct r as [|c r].
  { cbn. repeat split; try discriminate; try tauto; intros (? & _); done. }
  rewrite (Route_IsEmpty_false (c :: r)) by done.
  destruct (utf8_Valid (c :: r)) eqn:Eu; cbn [negb].
  - pose proof (IsValid_loop_cases (c :: r) 0 0) as Hc.
    rewrite IsValid_loop_NotAllowed, IsValid_loop_Incorrect, <- Hf.
    replace (Levels - 1) with 2 by reflexivity.
    split; [|split; [|split]].
    + split; [|discriminate]. intros H. rewrite H in Hc.
      destruct Hc as [?| [?|?]]; discriminate.
    + split; [|intros [_ [=]]]. intros H. rewrite H in Hc.
      destruct Hc as [?| [?|?]]; discriminate.
    + destruct (forallb allowed (c :: r)) eqn:Ea.
      * split; [discriminate|]. intros (_ & _ & H). by destruct H.
      * split; [|done]. intros _. split; [done|]. split; [done|]. discriminate.
    + split.
      * intros [-> H]. split; [done|]. split; [done|]. lia.
      * intros (_ & -> & H). split; [done|lia].
  - split; [|split; [|split]].
    + split; discriminate.
    + split; [done|]. done.
    + split; [discriminate|]. intros (_ & [=] & _).
    + split; [discriminate|]. intros (_ & Ha & _).
      apply Hf, allowed_ascii, utf8_Valid_ascii in Ha. congruence.
Qed.

(** X3.  [FQ] returns no bytes and the error of [IsValid] for a path that is
    not valid; for a valid one it returns, without an error, the prefix of
    the scope, a separator, the printed id (not empty, without a separator),
    a separator and the route: ASCII bytes with exactly [Levels + 1]
    separators, which [isFQ] accepts. *)
Theorem FQ_shape (p : Path) :
  match IsValid p with
  | Some err => FQ p = ([], Some err)
  | None =>
      exists idb,
        FQ p = (FromScope (pScope p) ++ rSeparator :: idb ++ rSeparator :: pRoute p, None) /\
        idb ≠ [] /\ (rSeparator ∉ idb) /\
        Count (FQ p).1 rSeparator = Levels + 1 /\
        isFQ (FQ p).1 = true /\
        Forall (fun c => byte_val c < 128) (FQ p).1
  end.
Proof.
  destruct (IsValid p) as [err|] eqn:Hv.
  - unfold FQ. by rewrite Hv.
  - pose proof Hv as (Hne & Ha & Hc & Hl)%IsValid_None.
    unfold FQ. rewrite Hv. unfold StrScope. cbn [fst].
    set (id := if bool_decide (pScope p = DefaultID) && (0 <? pID p) then 0 else pID p).
    destruct (FromScope_bytes (pScope p)) as (Hs1 & Hs2 & Hs3).
    destruct (AppendInt_bytes id) as [Hi1 Hi2].
    replace (((FromScope (pScope p) ++ [rSeparator]) ++ AppendInt id) ++ [rSeparator] ++ pRoute p)
      with (FromScope (pScope p) ++ rSeparator :: AppendInt id ++ rSeparator :: pRoute p)
      by (rewrite <- !app_assoc; done).
    assert (Hcount : Count (FromScope (pScope p) ++ rSeparator :: AppendInt id
                              ++ rSeparator :: pRoute p) rSeparator = Levels + 1).
    { rewrite Count_app. cbn [Count]. rewrite Count_app. cbn [Count].
      rewrite Ascii.eqb_refl, !Count_nosep, Hc by done. reflexivity. }
    exists (AppendInt id). split; [done|]. split; [|split; [done|split; [done|split]]].
    + unfold AppendInt. destruct (Z.to_int id) as [d|d]; cbn; [|done].
      unfold NilZero.string_of_uint. destruct d; cbn; done.
    + unfold isFQ. rewrite Hcount. reflexivity.
    + apply Forall_forall. intros c Hc'.
      assert (Hall : forallb (fun c => byte_val c <? 128)
                       (FromScope (pScope p) ++ rSeparator :: AppendInt id
                          ++ rSeparator :: pRoute p) = true).
      { rewrite forallb_app. cbn [forallb]. rewrite forallb_app. cbn [forallb].
        rewrite Hs3, Hi1, (allowed_ascii _ Ha). reflexivity. }
      rewrite forallb_forall in Hall. apply list_elem_of_In, Hall in Hc'. lia.
Qed.

(** X4.  Two valid paths with int64 ids that [FQ] writes to the same bytes
    have the same route, scopes with the same prefix, and the same id once a
    positive id of the Default scope is taken as 0. *)
Theorem FQ_same_bytes (p q : Path) :
  IsValid p = None -> IsValid q = None ->
  MinInt64 <= pID p <= MaxInt64 -> MinInt64 <= pID q <= MaxInt64 ->
  (FQ p).1 = (FQ q).1 ->
  pRoute p = pRoute q /\ FromScope (pScope p) = FromScope (pScope q) /\
  (if bool_decide (pScope p = DefaultID) && (0 <? pID p) then 0 else pID p)
  = (if bool_decide (pScope q = DefaultID) && (0 <? pID q) then 0 else pID q).
Proof.
  intros Hp Hq Hip Hiq Heq.
  destruct (SplitFQ_FQ p Hp Hip) as (fp & Hfp & Hsp).
  destruct (SplitFQ_FQ q Hq Hiq) as (fq & Hfq & Hsq).
  rewrite Hfp, Hfq in Heq. cbn [fst] in Heq. subst fq.
  rewrite Hsp in Hsq. injection Hsq as Hr Hs Hid.
  split; [done|]. split; [|done].
  destruct (pScope p), (pScope q); try reflexivity; vm_compute in Hs; discriminate.
Qed.

Lemma FQ_same_bytes_witness :
  IsValid (mkPath (b "aa/bb/cc") Default 5) = None /\
  IsValid (mkPath (b "aa/bb/cc") Group 0) = None /\
  (FQ (mkPath (b "aa/bb/cc") Default 5)).1 = (FQ (mkPath (b "aa/bb/cc") Group 0)).1 /\
  (b "aa/bb/cc" = b "aa/bb/cc" /\ FromScope Default = FromScope Group /\
   (if bool_decide (Default = DefaultID) && (0 <? 5) then 0 else 5)
   = (if bool_decide (Group = DefaultID) && (0 <? 0) then 0 else 0)).
Proof.
  split; [reflexivity|]. split; [reflexivity|]. split; [reflexivity|].
  apply (FQ_same_bytes (mkPath (b "aa/bb/cc") Default 5) (mkPath (b "aa/bb/cc") Group 0));
    try reflexivity; cbn; unfold MinInt64, MaxInt64; lia.
Defined.

(** X8.  [New] either returns the zero path and the error of [IsValid], or
    a path in the Default scope with the id 0 and the route given, which
    [FQ] writes as default/0/ and the route. *)
Theorem New_then_FQ (r : Route) :
  match New r with
  | (p, None) =>
      p = mkPath r Default 0 /\ IsValid p = None /\
      FQ p = (b "default/0/" ++ r, None)
  | (p, Some err) => p = Path_zero /\ IsValid (mkPath r Default 0) = Some err
  end.
Proof.
  unfold New. destruct (IsValid (mkPath r Default 0)) as [err|] eqn:Hv; [done|].
  split; [done|]. split; [done|]. unfold FQ. rewrite Hv. cbn. done.
Qed.

(** No segment of a route holds a separator. *)
Lemma split_sep_nosep_all (r : list ascii) :
  Forall (fun seg : list ascii => rSeparator ∉ seg) (split_sep r).
Proof.
  induction r as [|x r IH]; cbn [split_sep].
  - constructor; [apply not_elem_of_nil|constructor].
  - destruct (Ascii.eqb_spec x rSeparator) as [->|Hne].
    + constructor; [apply not_elem_of_nil|done].
    + destruct (split_sep r) as [|s l].
      { constructor; [|constructor]. rewrite not_elem_of_cons.
        split; [congruence|apply not_elem_of_nil]. }
      apply Forall_cons in IH as [Hs Hl]. constructor; [|done].
      rewrite not_elem_of_cons. split; congruence.
Qed.

Lemma Count_join_sep (l : list (list ascii)) :
  Forall (fun seg : list ascii => rSeparator ∉ seg) l -> l ≠ [] ->
  Count (join_sep l) rSeparator = len l - 1.
Proof.
  induction l as [|s l IH]; [done|]. intros [Hs Hl]%Forall_cons _.
  cbn [join_sep]. destruct l as [|s' l'].
  - rewrite Count_nosep by done. reflexivity.
  - rewrite Count_app. cbn [Count]. rewrite Ascii.eqb_refl, Count_nosep by done.
    rewrite IH by done. rewrite !len_cons. lia.
Qed.

Lemma join_sep_take_prefix (l : list (list ascii)) (k m : nat) :
  (1 <= k <= m)%nat -> join_sep (take k l) `prefix_of` join_sep (take m l).
Proof.
  revert k m. induction l as [|s l IH]; intros k m Hkm.
  - by rewrite !take_nil.
  - destruct k as [|k]; [lia|]. destruct m as [|m]; [lia|]. cbn [take join_sep].
    destruct k as [|k].
    + rewrite take_0. destruct (take m l); [done|]. by apply prefix_app_r.
    + destruct m as [|m]; [lia|]. destruct l as [|s' l']; [done|].
      specialize (IH (S k) (S m) ltac:(lia)). cbn [take] in *.
      apply prefix_app, prefix_cons. exact IH.
Qed.

(** [Level] on a valid path, for a level from 1 on. *)
Lemma Level_first_segments p n :
  IsValid p = None -> 1 <= n ->
  Level p n = Some (first_segments (Z.to_nat n) (pRoute p), None).
Proof.
  intros Hv Hn. pose proof Hv as (Hne & _ & Hc & Hl)%IsValid_None.
  unfold Level. rewrite Hv. unfold Route_Copy.
  destruct (n <? 0) eqn:E0; [lia|]. cbn [orb].
  destruct (len (pRoute p) <=? n) eqn:E1.
  - rewrite first_segments_all; [done|].
    pose proof (split_sep_length (pRoute p)) as Hs. rewrite Hc in Hs.
    unfold len, Levels in *. lia.
  - destruct (n =? 0) eqn:E2; [lia|].
    rewrite (Level_loop_spec _ [] (pRoute p) n 1) by lia.
    replace (n - 1 + 1) with n by lia. done.
Qed.

(** X5.  On a valid path [Level] returns the whole route for every level
    from [Levels] on, and for a level [n] from 1 to [Levels] a route with
    exactly [n - 1] separators; the routes of two levels, the lower at least
    1, are nested: the one of the lower level is a prefix of the other. *)
Theorem Level_separators_and_nesting (p : Path) (n m : Z) :
  IsValid p = None -> 1 <= n <= m ->
  exists rn rm,
    Level p n = Some (rn, None) /\ Level p m = Some (rm, None) /\
    rn `prefix_of` rm /\
    (n <= Levels -> Count rn rSeparator = n - 1) /\
    (Levels <= n -> rn = pRoute p).
Proof.
  intros Hv Hnm. pose proof Hv as (Hne & _ & Hc & Hl)%IsValid_None.
  rewrite !Level_first_segments by (done || lia).
  eexists _, _. split; [reflexivity|]. split; [reflexivity|].
  pose proof (split_sep_length (pRoute p)) as Hs. rewrite Hc in Hs.
  unfold Levels in *. split; [|split].
  - unfold first_segments. apply join_sep_take_prefix. lia.
  - intros Hle. unfold first_segments. rewrite Count_join_sep.
    + unfold len, bytes in *. rewrite length_take, Nat.min_l by lia. lia.
    + apply Forall_take, split_sep_nosep_all.
    + intros Hnil. apply (f_equal length) in Hnil.
      rewrite length_take, Nat.min_l in Hnil by (unfold len, bytes in Hs; lia).
      cbn in Hnil. lia.
  - intros Hge. apply first_segments_all. unfold len in Hs. lia.
Qed.

Lemma Level_separators_and_nesting_witness :
  IsValid (mkPath (b "system/smtp/host") Store 3) = None /\
  exists rn rm,
    Level (mkPath (b "system/smtp/host") Store 3) 1 = Some (rn, None) /\
    Level (mkPath (b "system/smtp/host") Store 3) 2 = Some (rm, None) /\
    rn `prefix_of` rm /\
    (1 <= Levels -> Count rn rSeparator = 1 - 1) /\
    (Levels <= 1 -> rn = b "system/smtp/host").
Proof.
  split; [reflexivity|].
  apply (Level_separators_and_nesting (mkPath (b "system/smtp/host") Store 3) 1 2);
    [reflexivity|lia].
Defined.

Lemma Count_first_sep (s : list ascii) c :
  1 <= Count s c ->
  exists seg rest, s = seg ++ c :: rest /\ (c ∉ seg) /\ IndexRune s c = len seg /\
                   Count rest c = Count s c - 1.
Proof.
  intros Hc. destruct (IndexRune_cases s c) as [[_ Hn]|(seg & rest & -> & Hs & Hi)].
  - rewrite Count_nosep in Hc by done. lia.
  - exists seg, rest. repeat split; try done.
    rewrite Count_app. cbn [Count]. rewrite Ascii.eqb_refl, (Count_nosep seg) by done. lia.
Qed.

(** X6.  The two slices that [SplitFQ] takes are in range: on bytes that
    [isFQ] accepts, both searches for a separator find one, so neither index
    is -1, and each slice ends within the bytes it is taken from. *)
Theorem SplitFQ_slices_in_range (fqPath : Route) :
  isFQ fqPath = true ->
  let fi := IndexRune fqPath rSeparator in
  let fqPath1 := slice_from fqPath (fi + 1) in
  let fi1 := IndexRune fqPath1 rSeparator in
  0 <= fi /\ fi + 1 <= len fqPath /\ 0 <= fi1 /\ fi1 + 1 <= len fqPath1.
Proof.
  unfold isFQ, Levels. intros H%Z.leb_le. cbn zeta.
  destruct (Count_first_sep fqPath rSeparator) as (seg & rest & -> & Hs & Hi & Hc); [lia|].
  rewrite Hi, slice_from_cons.
  destruct (Count_first_sep rest rSeparator) as (seg1 & rest1 & -> & Hs1 & Hi1 & Hc1); [lia|].
  rewrite Hi1, !len_app, !len_cons.
  pose proof (len_nonneg seg). pose proof (len_nonneg seg1). pose proof (len_nonneg rest1).
  rewrite len_app, len_cons. lia.
Qed.

Lemma SplitFQ_slices_in_range_witness :
  isFQ (b "stores/5/aa/bb/cc") = true /\
  let fi := IndexRune (b "stores/5/aa/bb/cc") rSeparator in
  let fqPath1 := slice_from (b "stores/5/aa/bb/cc") (fi + 1) in
  let fi1 := IndexRune fqPath1 rSeparator in
  0 <= fi /\ fi + 1 <= len (b "stores/5/aa/bb/cc") /\ 0 <= fi1 /\ fi1 + 1 <= len fqPath1.
Proof.
  split; [reflexivity|]. apply (SplitFQ_slices_in_range (b "stores/5/aa/bb/cc")). reflexivity.
Defined.

(** X7.  [SplitFQ] looks at the route only for its separators and its
    encoding: after one of the three scope prefixes and an id, any rest that
    is UTF-8 and has at least two separators is returned as the route, with
    the kind of the prefix and with what [ParseInt] makes of the id. *)
Theorem SplitFQ_takes_any_route (scp idb rest : list ascii) :
  rSeparator ∉ scp -> rSeparator ∉ idb -> ValidBytes scp = true ->
  2 <= Count rest rSeparator ->
  utf8_Valid (scp ++ rSeparator :: idb ++ rSeparator :: rest) = true ->
  SplitFQ (scp ++ rSeparator :: idb ++ rSeparator :: rest)
  = (mkPath rest (FromBytes scp) (ParseInt idb).1, (ParseInt idb).2).
Proof.
  intros Hs Hi Hv Hc Hu. rewrite SplitFQ_parts; try done.
  - by rewrite Hv.
  - unfold isFQ, Levels. rewrite Count_app. cbn [Count]. rewrite Count_app. cbn [Count].
    rewrite Ascii.eqb_refl, !Count_nosep by done. apply Z.leb_le. lia.
Qed.

Lemma SplitFQ_takes_any_route_witness :
  ValidBytes (b "stores") = true /\ 2 <= Count (b "a//b/c/d!") rSeparator /\
  SplitFQ (b "stores" ++ rSeparator :: b "+007" ++ rSeparator :: b "a//b/c/d!")
  = (mkPath (b "a//b/c/d!") (FromBytes (b "stores")) (ParseInt (b "+007")).1,
     (ParseInt (b "+007")).2) /\
  (ParseInt (b "+007")) = (7, None) /\
  IsValid (mkPath (b "a//b/c/d!") Store 7) = Some ErrNotAllowed.
Proof.
  assert (Hn : forall l : list ascii,
             forallb (fun c => negb (Ascii.eqb c rSeparator)) l = true -> rSeparator ∉ l).
  { induction l as [|x l IH]; simpl; [intros; apply not_elem_of_nil|].
    intros [Hx Hl]%andb_true_iff. rewrite not_elem_of_cons. split; [|auto].
    destruct (Ascii.eqb_spec x rSeparator); [done|congruence]. }
  split; [reflexivity|]. split; [vm_compute; congruence|].
  split; [|split; reflexivity].
  apply (SplitFQ_takes_any_route (b "stores") (b "+007") (b "a//b/c/d!"));
    [apply Hn; reflexivity|apply Hn; reflexivity|reflexivity|vm_compute; congruence|reflexivity].
Defined.

End path_extras.

Module perm_extras.
Import scope perm perm_more spec spec_more path_facts.

Lemma land_pow2 a k :
  0 <= k -> (Z.land a (2 ^ k) =? 0) = negb (Z.testbit a k).
Proof.
  intros Hk. destruct (Z.testbit a k) eqn:E; cbn [negb].
  - apply Z.eqb_neq. intros H0.
    assert (Ht : Z.testbit (Z.land a (2 ^ k)) k = true).
    { rewrite Z.land_spec, E, Z.pow2_bits_eqb, Z.eqb_refl by done. done. }
    rewrite H0, Z.bits_0 in Ht. discriminate.
  - apply Z.eqb_eq, Z.bits_inj'. intros n Hn.
    rewrite Z.land_spec, Z.bits_0, Z.pow2_bits_eqb by done.
    destruct (Z.eqb_spec k n) as [->|]; [by rewrite E|apply andb_false_r].
Qed.

Lemma bit_pow2 t : bit (Type_val t) = 2 ^ Type_val t.
Proof. by destruct t. Qed.

Lemma Type_val_nonneg t : 0 <= Type_val t.
Proof. destruct t; cbn; lia. Qed.

Lemma Type_val_inj t s : Type_val t = Type_val s -> t = s.
Proof. destruct t, s; cbn; intros; congruence || lia. Qed.

(** [Has] reads the bit of the kind. *)
Lemma Has_testbit bits t : Has bits t = Z.testbit bits (Type_val t).
Proof.
  unfold Has. rewrite bit_pow2, land_pow2 by apply Type_val_nonneg.
  apply negb_involutive.
Qed.

(** X9.  After [Set] a permission has the kinds it had and the kinds of the
    arguments, and no other. *)
Theorem Has_after_Set (bits : Perm) (scopes : list Typ) (t : Typ) :
  Has (Set_ bits scopes) t = Has bits t || bool_decide (t ∈ scopes).
Proof.
  revert bits. induction scopes as [|s l IH]; intros bits.
  - cbn. by rewrite orb_false_r.
  - change (Set_ bits (s :: l)) with (Set_ (Z.lor bits (bit (Type_val s))) l).
    rewrite IH, !Has_testbit, bit_pow2, Z.lor_spec, Z.pow2_bits_eqb
      by apply Type_val_nonneg.
    rewrite <- orb_assoc. f_equal.
    destruct (Z.eqb_spec (Type_val s) (Type_val t)) as [Heq|Hne].
    + apply Type_val_inj in Heq as ->. cbn [orb]. symmetry.
      apply bool_decide_eq_true_2, elem_of_cons. by left.
    + cbn [orb]. apply bool_decide_ext. rewrite elem_of_cons.
      split; [by right|]. intros [->|]; [done|done].
Qed.

(** X10.  [MakePerm] knows nine names.  For each of them it returns, with no
    error, a permission that holds no kind but Default, Website and Store and
    is closed downwards: it has every one of these three kinds up to its
    [Top].  For any other name it returns the zero permission and an error of
    kind NotSupported. *)
Theorem MakePerm_hierarchy (name : bytes) :
  match MakePerm name with
  | (p, None) =>
      name ∈ perm_names /\
      forall t, Has p t = true <->
                t ∈ [Default; Website; Store] /\ Type_val t <= Type_val (Top p)
  | (p, Some err) =>
      (name ∉ perm_names) /\ p = 0 /\ Match NotSupported err = true
  end.
Proof.
  assert (Hh : forall p, p ∈ [PermDefault; PermWebsite; PermStore] ->
    forall t, Has p t = true <->
              t ∈ [Default; Website; Store] /\ Type_val t <= Type_val (Top p)).
  { intros p Hp t. rewrite !elem_of_cons, elem_of_nil in Hp.
    rewrite !elem_of_cons, elem_of_nil.
    destruct Hp as [->|[->|[->|[]]]]; destruct t; vm_compute;
      intuition (discriminate || congruence). }
  unfold MakePerm, bytes_eqb, perm_names.
  repeat case_bool_decide; cbn [orb]; subst;
    try (split; [rewrite !elem_of_cons; tauto
                |apply Hh; rewrite !elem_of_cons; tauto]).
  split; [|done]. rewrite !not_elem_of_cons. repeat (split; [done|]).
  apply not_elem_of_nil.
Qed.

(** [Human] reads a permission only through the five tests of [Has]. *)
Lemma Human_names bits : Human bits = set_names bits.
Proof.
  unfold Human, set_names, all_types, indices, maxType.
  change (seqZ 0 5) with [0; 1; 2; 3; 4]. cbn [foldl List.filter].
  change (negb (Z.land bits (bit 0) =? 0)) with (Has bits Absent).
  change (negb (Z.land bits (bit 1) =? 0)) with (Has bits Default).
  change (negb (Z.land bits (bit 2) =? 0)) with (Has bits Website).
  change (negb (Z.land bits (bit 3) =? 0)) with (Has bits Group).
  change (negb (Z.land bits (bit 4) =? 0)) with (Has bits Store).
  by destruct (Has bits Absent), (Has bits Default), (Has bits Website),
    (Has bits Group), (Has bits Store).
Qed.

Lemma MarshalJSON_loop_join (hm : list bytes) buf i :
  hm ≠ [] ->
  MarshalJSON_loop buf hm i (i + len hm - 1)
  = buf ++ join_with [dquote; ","%char; dquote] hm.
Proof.
  revert buf i. induction hm as [|h hm IH]; [done|]. intros buf i _.
  cbn [MarshalJSON_loop join_with]. rewrite len_cons.
  destruct hm as [|h' hm'].
  - change (len (@nil bytes)) with 0.
    destruct (i <? i + (0 + 1) - 1) eqn:E; [lia|]. cbn. done.
  - pose proof (len_nonneg hm'). pose proof (len_cons h' hm').
    destruct (i <? i + (len (h' :: hm') + 1) - 1) eqn:E; [|lia].
    replace (i + (len (h' :: hm') + 1) - 1) with (i + 1 + len (h' :: hm') - 1) by lia.
    rewrite IH by done. by rewrite <- !app_assoc.
Qed.

(** X11.  For a permission other than zero [MarshalJSON] returns, with no
    error, the names of the kinds that are set, in the order of the
    hierarchy, each between double quotes, separated by commas and enclosed
    in brackets.  A permission other than zero with none of the five kinds
    set, such as [Perm(32)], is not encoded as null nor as the empty array
    but as the array of one empty string. *)
Theorem MarshalJSON_names (bits : Perm) :
  bits <> 0 ->
  MarshalJSON bits
  = (b "[" ++ [dquote] ++ join_with [dquote; ","%char; dquote] (set_names bits)
       ++ [dquote] ++ b "]", None) /\
  ((forall t, Has bits t = false) ->
   MarshalJSON bits = (b "[" ++ [dquote; dquote] ++ b "]", None)).
Proof.
  intros Hb. unfold MarshalJSON. destruct (Z.eqb_spec bits 0) as [|_]; [done|].
  cbn zeta. rewrite Human_names.
  assert (Hj : MarshalJSON_loop ["["%char; dquote] (set_names bits) 0
                 (len (set_names bits) - 1)
               = ["["%char; dquote]
                   ++ join_with [dquote; ","%char; dquote] (set_names bits)).
  { destruct (set_names bits) as [|h hm] eqn:E; [done|].
    rewrite <- (MarshalJSON_loop_join (h :: hm) _ 0) by done. done. }
  rewrite Hj. split; [by rewrite <- !app_assoc|].
  intros Hn. unfold set_names, all_types. cbn [List.filter]. by rewrite !Hn.
Qed.

Lemma MarshalJSON_names_witness :
  32 <> 0 /\
  MarshalJSON 32 = (b "[" ++ [dquote; dquote] ++ b "]", None) /\
  MarshalJSON 22
  = (b "[" ++ [dquote]
       ++ join_with [dquote; ","%char; dquote] [b "Default"; b "Website"; b "Store"]
       ++ [dquote] ++ b "]", None).
Proof.
  split; [lia|]. split.
  - apply (MarshalJSON_names 32); [lia|]. by intros [].
  - exact (proj1 (MarshalJSON_names 22 ltac:(lia))).
Defined.

(** X12.  [String] panics exactly on the permissions with none of the five
    kinds set: on zero, and as well on a permission such as [Perm(32)] whose
    bits are all above the kinds. *)
Theorem String_panics_exactly (bits : Perm) :
  String_ bits = None <-> forall t, Has bits t = false.
Proof.
  unfold String_, indices, maxType.
  change (seqZ 0 5) with [0; 1; 2; 3; 4]. cbn [foldl].
  change (negb (Z.land bits (bit 0) =? 0)) with (Has bits Absent).
  change (negb (Z.land bits (bit 1) =? 0)) with (Has bits Default).
  change (negb (Z.land bits (bit 2) =? 0)) with (Has bits Website).
  change (negb (Z.land bits (bit 3) =? 0)) with (Has bits Group).
  change (negb (Z.land bits (bit 4) =? 0)) with (Has bits Store).
  split.
  - intros H t.
    destruct (Has bits Absent) eqn:E0, (Has bits Default) eqn:E1,
      (Has bits Website) eqn:E2, (Has bits Group) eqn:E3, (Has bits Store) eqn:E4;
      try (vm_compute in H; discriminate).
    by destruct t.
  - intros H. by rewrite !H.
Qed.

End perm_extras.

Module ccd_extras.
Import scope path spec spec_more ccd ccd_more path_facts.

Lemma Level_negative p :
  Level p (-1) = match IsValid p with
                 | Some err => Some ([], Some err)
                 | None => Some (pRoute p, None)
                 end.
Proof. unfold Level. by destruct (IsValid p). Qed.

Lemma row_matches_self scp id pl v : row_matches scp id pl (mkRow scp id pl v) = true.
Proof.
  unfold row_matches. cbn. rewrite Z.eqb_refl.
  by rewrite !bool_decide_eq_true_2.
Qed.

Lemma row_matches_key scp id pl r :
  row_matches scp id pl r = true <-> (r_scope r, r_scope_id r, r_path r) = (scp, id, pl).
Proof.
  unfold row_matches. rewrite !andb_true_iff, !bool_decide_eq_true, Z.eqb_eq.
  split; [intros [[-> ->] ->]; done|intros [= -> -> ->]; done].
Qed.

Lemma find_none_existsb {A} (f : A -> bool) l :
  existsb f l = false -> List.find f l = None.
Proof.
  induction l as [|x l IH]; [done|]. cbn. destruct (f x); [done|]. exact IH.
Qed.

Lemma find_app_none {A} (f : A -> bool) l1 l2 :
  List.find f l1 = None -> List.find f (l1 ++ l2) = List.find f l2.
Proof.
  induction l1 as [|x l IH]; [done|]. cbn. destruct (f x); [done|]. exact IH.
Qed.

(** After the write the row of the key holds the value. *)
Lemma find_upsert_same t scp id pl v :
  exists r, List.find (row_matches scp id pl) (upsert t scp id pl v) = Some r /\
            r_value r = Some v.
Proof.
  unfold upsert. destruct (existsb _ t) eqn:E.
  - induction t as [|x t IH]; [done|]. cbn in E |- *.
    destruct (row_matches scp id pl x) eqn:Ex.
    + apply row_matches_key in Ex as [= <- <- <-].
      rewrite row_matches_self. by eexists.
    + rewrite Ex. apply IH. exact E.
  - rewrite find_app_none by by apply find_none_existsb.
    cbn. rewrite row_matches_self. by eexists.
Qed.

(** The write leaves the rows of the other keys as they are. *)
Lemma find_upsert_other t scp id pl v scp' id' pl' :
  (scp, id, pl) <> (scp', id', pl') ->
  List.find (row_matches scp' id' pl') (upsert t scp id pl v)
  = List.find (row_matches scp' id' pl') t.
Proof.
  intros Hne. unfold upsert. destruct (existsb _ t) eqn:E; clear E.
  - induction t as [|x t IH]; [done|]. cbn.
    destruct (row_matches scp id pl x) eqn:Ex.
    + apply row_matches_key in Ex as Hk.
      assert (Hx : row_matches scp' id' pl' x = false).
      { apply not_true_is_false. rewrite row_matches_key. congruence. }
      assert (Hx' : row_matches scp' id' pl'
                      (mkRow (r_scope x) (r_scope_id x) (r_path x) (Some v)) = false).
      { apply not_true_is_false. rewrite row_matches_key. cbn. congruence. }
      by rewrite Hx, Hx'.
    + destruct (row_matches scp' id' pl' x); [done|exact IH].
  - induction t as [|x t IH]; cbn.
    + assert (Hx : row_matches scp' id' pl' (mkRow scp id pl (Some v)) = false).
      { apply not_true_is_false. rewrite row_matches_key. cbn. congruence. }
      by rewrite Hx.
    + destruct (row_matches scp' id' pl' x); [done|exact IH].
Qed.

Section WithConv.
Context {V : Type} (ToStringE : V -> bytes * option error).

(** X13.  What [Set] wrote, [Value] reads: when the value converts to a
    string, the two statements can be prepared, the write succeeds and the
    key is a valid path, [Set] returns no error and [Value] on the storage
    after it returns the string for the key, with no error. *)
Theorem Set_then_Value (st : Storage) (key : Path) (value : V) (v : bytes) :
  ToStringE value = (v, None) -> Write_Stmt st = None -> Write_Exec st = None ->
  Read_Stmt (store st) = None -> IsValid key = None ->
  exists st', Set_ ToStringE st key value = Some (st', None) /\
              Value (store st') key = Some (Some v, None).
Proof.
  intros Hc Hw He Hr Hv. unfold Set_.
  rewrite Hc, Hw, He, Level_negative, Hv. eexists. split; [reflexivity|].
  unfold Value. cbn [store Read_Stmt table]. rewrite Hr, Level_negative, Hv.
  unfold QueryRow_Scan.
  destruct (find_upsert_same (table (store st)) (FromScope (pScope key)) (pID key)
              (pRoute key) v) as (r & -> & ->).
  reflexivity.
Qed.

(** X14.  [Set] on one key does not change what [Value] returns for a key
    of another row of the table, whether the write succeeds or fails.  Two
    paths have the same row when they agree on the prefix of the scope, the
    id and the route. *)
Theorem Set_keeps_other_keys (st st' : Storage) (key key' : Path) (value : V)
    (e : option error) :
  Set_ ToStringE st key value = Some (st', e) ->
  table_key key <> table_key key' ->
  Value (store st') key' = Value (store st) key'.
Proof.
  unfold Set_, table_key. intros HS Hk.
  destruct (ToStringE value) as [valStr [err|]]; [by injection HS as <- <-|].
  destruct (Write_Stmt st); [by injection HS as <- <-|].
  rewrite Level_negative in HS.
  destruct (IsValid key) eqn:Hv; [by injection HS as <- <-|].
  destruct (Write_Exec st); [by injection HS as <- <-|].
  injection HS as <- <-. unfold Value. cbn [store Read_Stmt table].
  destruct (Read_Stmt (store st)); [done|].
  rewrite Level_negative. destruct (IsValid key'); [done|].
  unfold QueryRow_Scan. by rewrite find_upsert_other.
Qed.

(** X15.  [Set] always returns; it returns no error exactly when all four
    steps succeed (the conversion of the value, the preparation of the
    statement, the validation of the key by [Level], the execution), and a
    failed [Set] leaves the storage as it was. *)
Theorem Set_fails_unchanged (st : Storage) (key : Path) (value : V) :
  exists st' e,
    Set_ ToStringE st key value = Some (st', e) /\
    (e = None <-> (ToStringE value).2 = None /\ Write_Stmt st = None /\
                  IsValid key = None /\ Write_Exec st = None) /\
    (e <> None -> st' = st).
Proof.
  unfold Set_. destruct (ToStringE value) as [valStr [err|]]; cbn [snd].
  { eexists _, _. split; [reflexivity|]. split; [|done].
    split; [done|]. by intros [? _]. }
  destruct (Write_Stmt st).
  { eexists _, _. split; [reflexivity|]. split; [|done].
    split; [done|]. by intros (_ & ? & _). }
  rewrite Level_negative. destruct (IsValid key).
  { eexists _, _. split; [reflexivity|]. split; [|done].
    split; [done|]. by intros (_ & _ & ? & _). }
  destruct (Write_Exec st).
  { eexists _, _. split; [reflexivity|]. split; [|done].
    split; [done|]. by intros (_ & _ & _ & ?). }
  eexists _, _. split; [reflexivity|]. split; [done|]. by intros [].
Qed.

End WithConv.

Lemma Set_then_Value_witness :
  IsValid (mkPath (b "aa/bb/cc") Store 3) = None /\
  exists st',
    Set_ (fun x : bytes => (x, None))
         (mkStorage (mkDB [mkRow (b "stores") 3 (b "aa/bb/cc") None] None) None None)
         (mkPath (b "aa/bb/cc") Store 3) (b "x") = Some (st', None) /\
    Value (store st') (mkPath (b "aa/bb/cc") Store 3) = Some (Some (b "x"), None).
Proof.
  split; [reflexivity|].
  apply (Set_then_Value (fun x : bytes => (x, None))
           (mkStorage (mkDB [mkRow (b "stores") 3 (b "aa/bb/cc") None] None) None None)
           (mkPath (b "aa/bb/cc") Store 3) (b "x") (b "x")); reflexivity.
Defined.

Lemma Set_keeps_other_keys_witness :
  table_key (mkPath (b "aa/bb/cc") Store 3) <> table_key (mkPath (b "aa/bb/cc") Default 0) /\
  Value (mkDB [mkRow (b "default") 0 (b "aa/bb/cc") (Some (b "old"));
               mkRow (b "stores") 3 (b "aa/bb/cc") (Some (b "x"))] None)
        (mkPath (b "aa/bb/cc") Default 0)
  = Value (mkDB [mkRow (b "default") 0 (b "aa/bb/cc") (Some (b "old"))] None)
          (mkPath (b "aa/bb/cc") Default 0).
Proof.
  assert (Hk : table_key (mkPath (b "aa/bb/cc") Store 3)
               <> table_key (mkPath (b "aa/bb/cc") Default 0)) by (vm_compute; congruence).
  split; [exact Hk|].
  exact (Set_keeps_other_keys (fun x : bytes => (x, None))
           (mkStorage (mkDB [mkRow (b "default") 0 (b "aa/bb/cc") (Some (b "old"))] None)
                      None None)
           _ (mkPath (b "aa/bb/cc") Store 3) (mkPath (b "aa/bb/cc") Default 0)
           (b "x") None eq_refl Hk).
Defined.

(** X16.  [Value] always returns, and it returns either a value and no
    error or no value and an error.  It returns a value exactly when the
    statement can be prepared, the key is a valid path and the first row of
    the table with the prefix of the scope, the id and the route of the key
    holds a value other than NULL, which is the value returned. *)
Theorem Value_of_first_row (dbs : DBStorage) (key : Path) :
  exists v e,
    Value dbs key = Some (v, e) /\ (v = None <-> e <> None) /\
    forall d, v = Some d <->
              Read_Stmt dbs = None /\ IsValid key = None /\
              exists r, List.find (row_matches (FromScope (pScope key)) (pID key)
                                     (pRoute key)) (table dbs) = Some r /\
                        r_value r = Some d.
Proof.
  unfold Value. destruct (Read_Stmt dbs).
  { eexists _, _. split; [reflexivity|]. split; [done|].
    intros d. split; [done|]. by intros [? _]. }
  rewrite Level_negative. destruct (IsValid key).
  { eexists _, _. split; [reflexivity|]. split; [done|].
    intros d. split; [done|]. by intros (_ & ? & _). }
  unfold QueryRow_Scan. destruct (List.find _ _) as [r|].
  - destruct (r_value r) as [data|] eqn:Er.
    + eexists _, _. split; [reflexivity|]. split; [done|].
      intros d. split.
      * intros [= <-]. eauto.
      * intros (_ & _ & r' & [= <-] & Hd). congruence.
    + eexists _, _. split; [reflexivity|]. split; [done|].
      intros d. split; [done|]. intros (_ & _ & r' & [= <-] & Hd). congruence.
  - eexists _, _. split; [reflexivity|]. split; [done|].
    intros d. split; [done|]. by intros (_ & _ & r' & ? & _).
Qed.

End ccd_extras.

Module pathslice_extras.
Import pathslice.

Lemma byte_val_inj c d : byte_val c = byte_val d -> c = d.
Proof.
  unfold byte_val. intros H%N2Z.inj.
  rewrite <- (ascii_N_embedding c), <- (ascii_N_embedding d). by rewrite H.
Qed.

Lemma bytes_ltb_irrefl x : bytes_ltb x x = false.
Proof.
  induction x as [|c x IH]; [done|]. cbn.
  destruct (byte_val c <? byte_val c) eqn:E; [lia|done].
Qed.

Lemma bytes_ltb_asym x y : bytes_ltb x y = true -> bytes_ltb y x = false.
Proof.
  revert y. induction x as [|c x IH]; intros [|d y]; cbn; try done.
  destruct (byte_val c <? byte_val d) eqn:E1, (byte_val d <? byte_val c) eqn:E2;
    try done; try lia. apply IH.
Qed.

(** If [x] is not below [y] and [y] is not below [z], [x] is not below [z]. *)
Lemma bytes_ltb_chain x y z :
  bytes_ltb x y = false -> bytes_ltb y z = false -> bytes_ltb x z = false.
Proof.
  revert y z. induction x as [|c x IH]; intros [|d y] [|e z]; cbn; try done.
  destruct (byte_val c <? byte_val d) eqn:E1; [done|].
  destruct (byte_val d <? byte_val c) eqn:E2;
    destruct (byte_val d <? byte_val e) eqn:E3; try done;
    destruct (byte_val e <? byte_val d) eqn:E4;
    destruct (byte_val c <? byte_val e) eqn:E5; try done; try lia;
    destruct (byte_val e <? byte_val c) eqn:E6; try done; try lia.
  apply IH.
Qed.

Lemma bytes_ltb_total x y :
  bytes_ltb x y = false -> bytes_ltb y x = false -> x = y.
Proof.
  revert y. induction x as [|c x IH]; intros [|d y]; cbn; try done.
  destruct (byte_val c <? byte_val d) eqn:E1; [done|].
  destruct (byte_val d <? byte_val c) eqn:E2; [done|].
  intros H1 H2. f_equal; [apply byte_val_inj; lia|by apply IH].
Qed.

Section Facts.
Context {TypeID : Type} `{EqDecision TypeID}.
Implicit Types (p q x y : Path TypeID) (ps l : PathSlice TypeID).

Lemma insert_stable_perm x l : insert_stable x l ≡ₚ x :: l.
Proof.
  induction l as [|y l IH]; [done|]. cbn. destruct (Less y x); [|done].
  rewrite IH. apply Permutation_swap.
Qed.

Lemma Sort_perm ps : Sort ps ≡ₚ ps.
Proof.
  induction ps as [|x ps IH]; [done|]. cbn [Sort foldr].
  rewrite insert_stable_perm. by apply Permutation_skip.
Qed.

Lemma insert_stable_sorted x l :
  StronglySorted ordered l -> StronglySorted ordered (insert_stable x l).
Proof.
  induction 1 as [|y l Hl IH Hy]; cbn.
  - constructor; [constructor|constructor].
  - destruct (Less y x) eqn:E.
    + constructor; [exact IH|]. rewrite insert_stable_perm. constructor; [|exact Hy].
      unfold ordered, Less in *. by apply bytes_ltb_asym.
    + constructor; [by constructor|]. constructor; [exact E|].
      eapply Forall_impl; [exact Hy|]. intros z Hz. unfold ordered, Less in *.
      by apply (bytes_ltb_chain _ (Route_Data y)).
Qed.

Lemma insert_stable_sorted_head x l :
  Forall (ordered x) l -> insert_stable x l = x :: l.
Proof. intros H. destruct H as [|y l Hy _]; [done|]. cbn. by rewrite Hy. Qed.

Lemma filter_insert_stable r x l :
  List.filter (fun p => bool_decide (Route_Data p = r)) (insert_stable x l)
  = List.filter (fun p => bool_decide (Route_Data p = r)) (x :: l).
Proof.
  induction l as [|y l IH]; [done|]. cbn [insert_stable].
  destruct (Less y x) eqn:E; [|done].
  cbn [List.filter] in IH |- *. rewrite IH.
  case_bool_decide as Hy; [|done]. case_bool_decide as Hx; [|done].
  unfold Less in E. rewrite Hy, Hx, bytes_ltb_irrefl in E. discriminate.
Qed.

End Facts.

Section Theorems.
Context {TypeID : Type} `{EqDecision TypeID}.

(** X17.  [Contains] is true exactly for the paths of the slice, and
    [Sort] does not change what the slice contains. *)
Theorem Contains_elem_of (ps : PathSlice TypeID) (p : Path TypeID) :
  (Contains ps p = true <-> p ∈ ps) /\ Contains (Sort ps) p = Contains ps p.
Proof.
  assert (Hc : forall l : PathSlice TypeID, Contains l p = true <-> p ∈ l).
  { induction l as [|q l IH]; cbn.
    - split; [done|]. by intros ?%elem_of_nil.
    - rewrite elem_of_cons. repeat case_bool_decide; cbn [andb].
      + split; [|done]. intros _. left. destruct p, q; cbn in *. congruence.
      + rewrite IH. split; [by right|]. intros [->|]; done.
      + rewrite IH. split; [by right|]. intros [->|]; done.
      + rewrite IH. split; [by right|]. intros [->|]; done. }
  split; [apply Hc|].
  destruct (Contains ps p) eqn:E.
  - apply Hc. rewrite Sort_perm. by apply Hc.
  - apply not_true_is_false. rewrite Hc, Sort_perm, <- Hc. congruence.
Qed.

(** X18.  [Sort] rearranges the slice (it has the same paths, each as often
    as before) so that no path has a route less than the route of a path
    before it; a slice that is in this order already is left as it is. *)
Theorem Sort_ordered_permutation (ps : PathSlice TypeID) :
  Sort ps ≡ₚ ps /\
  StronglySorted (fun a c => Less c a = false) (Sort ps) /\
  Len (Sort ps) = Len ps /\
  (StronglySorted (fun a c => Less c a = false) ps -> Sort ps = ps).
Proof.
  split; [apply Sort_perm|]. split; [|split].
  - induction ps as [|x ps IH]; [constructor|].
    cbn [Sort foldr]. by apply (insert_stable_sorted x).
  - unfold Len, len. by rewrite Sort_perm.
  - induction 1 as [|x l Hl IH Hx]; [done|]. cbn [Sort foldr].
    change (foldr insert_stable [] l) with (Sort l). rewrite IH.
    by apply insert_stable_sorted_head.
Qed.

(** X19.  [Sort] is stable: the paths with one and the same route are after
    the sort in the order in which they were before, whatever their scopes
    are. *)
Theorem Sort_stable (ps : PathSlice TypeID) (r : bytes) :
  List.filter (fun p => bool_decide (Route_Data p = r)) (Sort ps)
  = List.filter (fun p => bool_decide (Route_Data p = r)) ps.
Proof.
  induction ps as [|x ps IH]; [done|]. cbn [Sort foldr].
  change (foldr insert_stable [] ps) with (Sort ps).
  rewrite filter_insert_stable. cbn [List.filter]. by rewrite IH.
Qed.

End Theorems.

End pathslice_extras.

Module pubsub_extras.
Import scope path config spec spec_more path_facts pubsub_facts.

Section Facts.
Context `{RT : Runtime}.

Lemma no_empty_same s s' :
  subMap s' = subMap s -> no_empty_bucket s -> no_empty_bucket s'.
Proof. unfold no_empty_bucket. by intros ->. Qed.

Lemma Subscribe_no_empty s p mr :
  no_empty_bucket s -> no_empty_bucket (Subscribe s p mr).1.
Proof.
  intros Hn. unfold Subscribe. destruct (Route_IsEmpty (pRoute p)); [done|].
  cbn [fst]. intros h subs. cbn [subMap].
  destruct (decide (h = Hash32 p)) as [->|Hne].
  - rewrite lookup_insert_eq. intros [= <-]. apply insert_non_empty.
  - rewrite lookup_insert_ne by done. apply Hn.
Qed.

Lemma Unsubscribe_no_empty s x :
  no_empty_bucket s -> no_empty_bucket (Unsubscribe s x).1.
Proof.
  intros Hn. unfold Unsubscribe.
  destruct (list_find _ _) as [[i [path subs]]|]; [|done].
  cbn [fst]. intros h b0. cbn [subMap set_subMap].
  destruct (decide (h = path)) as [->|Hne].
  - case_bool_decide as Hsz.
    + by rewrite lookup_delete_eq.
    + rewrite lookup_insert_eq. intros [= <-] He. by rewrite He, map_size_empty in Hsz.
  - case_bool_decide; rewrite ?lookup_delete_ne, ?lookup_insert_ne by done; apply Hn.
Qed.

Lemma evict_no_empty s (evict : list Z) :
  no_empty_bucket s -> no_empty_bucket (foldl (fun s e => (Unsubscribe s e).1) s evict).
Proof.
  revert s. induction evict as [|x evict IH]; intros s Hn; [done|].
  cbn [foldl]. by apply IH, Unsubscribe_no_empty.
Qed.

Lemma deliver_no_empty s e s' e' :
  deliver s e = (Ret s', e') -> no_empty_bucket s -> no_empty_bucket s'.
Proof.
  unfold deliver. destruct (publisher s) as [| |p| |];
    try (unfold ret; by intros [= <- <-]).
  unfold bind. destruct (publish_event_returns s p e) as (new & e1 & -> & _).
  unfold ret. intros [= <- <-] Hn. apply (no_empty_same _ _ eq_refl).
  by apply evict_no_empty.
Qed.

Lemma sendMsg_subMap s p e s' e' :
  sendMsg s p e = (Ret s', e') ->
  subMap s' = subMap s \/
  exists s1 e1, deliver s e = (Ret s1, e1) /\ subMap s' = subMap s1.
Proof.
  unfold sendMsg. destruct (closed s); cbn [negb].
  { unfold ret. intros [= <- <-]. by left. }
  destruct (pubPath s); [|done]. unfold bind.
  destruct (deliver s e) as [[s1| |] e1]; [|done|done].
  destruct (publisher s1); try done. unfold ret. intros [= <- <-].
  right. by eexists _, _.
Qed.

Lemma Close_deferred_subMap (r : result (option error)) s r' s' :
  Close_deferred (r, s) = (r', s') -> subMap s' = subMap s.
Proof.
  unfold Close_deferred.
  destruct r; try (by intros [= <- <-]);
    destruct (close_chan (closeErr s)); by intros [= <- <-].
Qed.

Lemma Close_handshake_subMap s : subMap (Close_handshake s).2 = subMap s.
Proof.
  unfold Close_handshake. cbn [pubPath set_publisher stop set_pubPath closeErr set_stop publisher].
  destruct (pubPath s), (stop s), (closeErr s); done.
Qed.

Lemma Close_subMap s e r s' e' :
  Close (Some s) e = (r, Some s', e') ->
  subMap s' = subMap s \/
  exists s1 e1, deliver (set_closed s true) e = (Ret s1, e1) /\ subMap s' = subMap s1.
Proof.
  unfold Close. destruct (closed s); [intros [= <- <- <-]; by left|].
  cbn [stop set_closed]. destruct (stop s).
  - destruct (deliver _ e) as [[s1| |] e1] eqn:Hd.
    + destruct (publisher s1);
        try (intros [= <- <- <-]; right; by eexists _, _).
      destruct (Close_deferred (Close_handshake s1)) as [r1 s2] eqn:Hc.
      intros [= <- <- <-]. right. eexists _, _. split; [done|].
      destruct (Close_handshake s1) as [r0 s0] eqn:Hh.
      apply Close_deferred_subMap in Hc. rewrite Hc.
      pose proof (Close_handshake_subMap s1) as Hs. by rewrite Hh in Hs.
    + intros [= <- <- <-]. by left.
    + intros [= <- <- <-]. by left.
  - destruct (Close_deferred _) as [r1 s2] eqn:Hc. intros [= <- <- <-].
    apply Close_deferred_subMap in Hc. by left.
Qed.

Lemma reachable_no_empty s : reachable s -> no_empty_bucket s.
Proof.
  unfold reachable. intros H.
  apply (rtc_ind_r (R := step) (fun s => no_empty_bucket s) (go_publish newPubSub));
    [|clear s H|exact H].
  { intros h subs. cbn. by rewrite lookup_empty. }
  intros s s' _ Hst Hn.
  destruct Hst as [s p mr|s id|s p e s' e' Hsend|s e s' e' Hdel|s e r s' e' Hcl].
  - by apply Subscribe_no_empty.
  - by apply Unsubscribe_no_empty.
  - destruct (sendMsg_subMap _ _ _ _ _ Hsend) as [Heq|(s1 & e1 & Hd & Heq)].
    + by apply (no_empty_same s).
    + apply (no_empty_same s1); [done|]. by apply (deliver_no_empty s e s1 e1).
  - by apply (deliver_no_empty s e s' e').
  - destruct (Close_subMap _ _ _ _ _ Hcl) as [Heq|(s1 & e1 & Hd & Heq)].
    + by apply (no_empty_same s).
    + apply (no_empty_same s1); [done|].
      apply (deliver_no_empty _ e s1 e1 Hd). by apply (no_empty_same s).
Qed.

End Facts.

Section Theorems.
Context `{RT : Runtime}.

(** X20.  [Subscribe] refuses the empty route and nothing else: for a path
    with an empty route it returns the id 0 and an error of kind Empty and
    leaves the bus as it is; for any other path, valid or not, it returns no
    error and the next id of the counter, and the receiver sits under this
    id in the bucket of [Hash32] of the path. *)
Theorem Subscribe_refuses_only_empty (s : pubSub) (p : Path) (mr : MessageReceiver) :
  match Subscribe s p mr with
  | (s', (id, Some err)) =>
      pRoute p = [] /\ s' = s /\ id = 0 /\ Match Empty err = true
  | (s', (id, None)) =>
      pRoute p <> [] /\ id = subAutoInc s + 1 /\ subAutoInc s' = id /\
      lookup_sub s' (Hash32 p) id = Some mr
  end.
Proof.
  destruct (decide (pRoute p = [])) as [He|Hne].
  - destruct (Subscribe_empty s p mr He) as (err & -> & Hm). done.
  - pose proof (Subscribe_lookup s p mr (Hash32 p) (subAutoInc s + 1) Hne) as Hl.
    rewrite bool_decide_eq_true_2 in Hl by done.
    revert Hl. unfold Subscribe. rewrite (Route_IsEmpty_false _ Hne). cbn [fst].
    intros Hl. done.
Qed.

(** X21.  On a well-formed bus the id that [Subscribe] returns for a path
    with a route is fresh: no subscriber had it before.  Afterwards it is in
    the bucket of the path and in no other, every other subscription is as
    it was, and the bus is well formed again. *)
Theorem Subscribe_fresh_id (s : pubSub) (p : Path) (mr : MessageReceiver) :
  wf s -> pRoute p <> [] ->
  let s' := (Subscribe s p mr).1 in
  let id := (Subscribe s p mr).2.1 in
  ~ subscribed s id /\
  (forall h, lookup_sub s' h id = if bool_decide (h = Hash32 p) then Some mr else None) /\
  (forall h i, i <> id -> lookup_sub s' h i = lookup_sub s h i) /\
  wf s'.
Proof.
  intros Hwf Hne. cbn zeta.
  assert (Hid : (Subscribe s p mr).2.1 = subAutoInc s + 1).
  { unfold Subscribe. by rewrite (Route_IsEmpty_false _ Hne). }
  rewrite Hid. destruct Hwf as [Hu Hb].
  assert (Hfresh : forall h, lookup_sub s h (subAutoInc s + 1) = None).
  { intros h. destruct (lookup_sub s h (subAutoInc s + 1)) eqn:E; [|done].
    assert (Hs : is_Some (lookup_sub s h (subAutoInc s + 1))) by (by rewrite E).
    apply Hb in Hs. lia. }
  split; [|split; [|split]].
  - intros [h Hs]. rewrite Hfresh in Hs. by destruct Hs.
  - intros h. rewrite Subscribe_lookup by done.
    destruct (decide (h = Hash32 p)) as [->|Hh].
    + by rewrite !bool_decide_eq_true_2.
    + rewrite !bool_decide_eq_false_2 by tauto. apply Hfresh.
  - intros h i Hi. rewrite Subscribe_lookup by done.
    by rewrite bool_decide_eq_false_2 by tauto.
  - by apply Subscribe_wf.
Qed.

(** X22.  [Unsubscribe] never returns an error.  On a well-formed bus the
    id is in no bucket afterwards and every other subscription is as it was;
    for an id that is not subscribed the bus is left as it is. *)
Theorem Unsubscribe_removes_only (s : pubSub) (x : Z) :
  wf s ->
  (Unsubscribe s x).2 = None /\
  ~ subscribed (Unsubscribe s x).1 x /\
  (forall h id, id <> x -> lookup_sub (Unsubscribe s x).1 h id = lookup_sub s h id) /\
  (~ subscribed s x -> (Unsubscribe s x).1 = s).
Proof.
  intros Hwf. split; [apply Unsubscribe_fields|]. split; [|split].
  - intros [h Hs]. rewrite Unsubscribe_lookup in Hs by done.
    rewrite bool_decide_eq_true_2 in Hs by done. by destruct Hs.
  - intros h id Hid. rewrite Unsubscribe_lookup by done.
    by rewrite bool_decide_eq_false_2.
  - intros Hn. unfold Unsubscribe.
    destruct (list_find _ _) as [[i [path subs]]|] eqn:Hf; [|done].
    apply list_find_Some in Hf as (Hi & Hx & _). cbn [snd] in Hx.
    apply list_elem_of_lookup_2, elem_of_range in Hi.
    destruct Hn. exists path. by rewrite (lookup_sub_bucket _ _ _ _ Hi).
Qed.

(** X23.  [Unsubscribe] undoes [Subscribe]: on a well-formed bus without an
    empty bucket, subscribing a receiver and unsubscribing the id returned
    gives back the subscription map as it was, empty buckets included, for
    any hash and any order of the map; only the counter keeps its step. *)
Theorem Subscribe_then_Unsubscribe (s : pubSub) (p : Path) (mr : MessageReceiver) :
  wf s -> no_empty_bucket s -> pRoute p <> [] ->
  let s1 := (Subscribe s p mr).1 in
  let id := (Subscribe s p mr).2.1 in
  subMap (Unsubscribe s1 id).1 = subMap s /\
  subAutoInc (Unsubscribe s1 id).1 = subAutoInc s + 1 /\
  no_empty_bucket (Unsubscribe s1 id).1.
Proof.
  intros Hwf Hn Hne. cbn zeta.
  split; [|split];
    [| |by apply Unsubscribe_no_empty, Subscribe_no_empty].
  2:{ destruct (Unsubscribe_fields (Subscribe s p mr).1 (Subscribe s p mr).2.1)
        as (_ & -> & _).
      unfold Subscribe. by rewrite (Route_IsEmpty_false _ Hne). }
  destruct Hwf as [Hu Hb].
  assert (Hfresh : forall h, lookup_sub s h (subAutoInc s + 1) = None).
  { intros h. destruct (lookup_sub s h (subAutoInc s + 1)) eqn:E; [|done].
    assert (Hs : is_Some (lookup_sub s h (subAutoInc s + 1))) by (by rewrite E).
    apply Hb in Hs. lia. }
  unfold Subscribe. rewrite (Route_IsEmpty_false _ Hne). cbn [fst snd].
  set (id := subAutoInc s + 1). set (h := Hash32 p).
  set (bucket := default ∅ (subMap s !! h)).
  assert (Hbid : bucket !! id = None).
  { specialize (Hfresh h). unfold lookup_sub in Hfresh. subst bucket.
    destruct (subMap s !! h); [exact Hfresh|apply lookup_empty]. }
  unfold Unsubscribe. cbn [subMap].
  destruct (list_find _ _) as [[i [path subs]]|] eqn:Hf.
  - apply list_find_Some in Hf as (Hi & Hx & _). cbn [snd] in Hx.
    apply list_elem_of_lookup_2, elem_of_range in Hi.
    assert (path = h) as ->.
    { destruct (decide (path = h)) as [|Hp]; [done|].
      rewrite lookup_insert_ne in Hi by done.
      specialize (Hfresh path). rewrite (lookup_sub_bucket _ _ _ _ Hi) in Hfresh.
      subst id. rewrite Hfresh in Hx. by destruct Hx. }
    rewrite lookup_insert_eq in Hi. injection Hi as <-.
    cbn [fst subMap set_subMap]. rewrite delete_insert_id by done.
    rewrite insert_insert_eq. subst bucket.
    destruct (subMap s !! h) as [b0|] eqn:Hb0; cbn [default].
    + rewrite bool_decide_eq_false_2.
      * by apply insert_id.
      * intros Hz%map_size_empty_iff. by apply (Hn h b0).
    + rewrite bool_decide_eq_true_2 by apply map_size_empty.
      by apply delete_insert_id.
  - apply list_find_None in Hf. rewrite Forall_forall in Hf.
    destruct (Hf (h, <[id:=mr]> bucket)).
    + apply elem_of_range. apply lookup_insert_eq.
    + cbn. rewrite lookup_insert_eq. by eexists.
Qed.

(** X24.  However a bus is used through its interface, its subscription map
    holds no empty bucket: [Unsubscribe] and the evictions of [publish]
    leave no topic without a subscriber behind.  So the map is empty, which
    is what [publish] tests before it looks anything up, exactly when nobody
    is subscribed. *)
Theorem reachable_no_empty_bucket (s : pubSub) :
  reachable s ->
  no_empty_bucket s /\
  (size (subMap s) = 0%nat <-> forall id, ~ subscribed s id).
Proof.
  intros Hn%reachable_no_empty. split; [exact Hn|]. split.
  - intros Hz id [h Hs]. rewrite lookup_sub_empty in Hs by done. by destruct Hs.
  - intros Hnone. apply map_size_empty_iff, map_empty. intros h.
    destruct (subMap s !! h) as [subs|] eqn:Hb; [|done].
    destruct (map_choose subs (Hn h subs Hb)) as (id & mr & Hid).
    destruct (Hnone id). exists h. rewrite (lookup_sub_bucket _ _ _ _ Hb), Hid. by eexists.
Qed.

(** X25.  On every state that a bus reaches through its interface
    [sendMsg] returns: it neither panics on a closed channel nor blocks.  On
    a closed bus it does nothing; on an open one it waits for the path that
    the goroutine still holds to be delivered, and leaves its own path with
    the goroutine without calling a subscriber for it. *)
Theorem sendMsg_returns_on_reachable (s : pubSub) (p : Path) (e : env) :
  reachable s ->
  exists s' e',
    sendMsg s p e = (Ret s', e') /\
    e' = (deliver s e).2 /\
    (in_flight s = None -> e' = e) /\
    if closed s then s' = s /\ e' = e else in_flight s' = Some p.
Proof.
  intros [_ [Ha|Hs]]%reachable_invariant.
  - destruct (sendMsg_alive s p e Ha) as (s1 & e1 & Hd & ->).
    destruct (deliver_returns s e) as (s2 & e2 & Hd2 & _ & _ & _ & _ & _ & _ & Hf).
    rewrite Hd2 in Hd. injection Hd as <- <-.
    eexists _, _. split; [reflexivity|]. rewrite Hd2. split; [done|].
    destruct Ha as (-> & _). split; [|done].
    intros Hi. rewrite Hi in Hf. apply Hf.
  - rewrite (sendMsg_shut s p e Hs). eexists _, _. split; [reflexivity|].
    destruct (deliver_returns s e) as (s2 & e2 & Hd2 & _ & _ & _ & _ & _ & _ & Hf).
    destruct Hs as (Hc & _ & _ & _ & Hg). unfold in_flight in Hf. rewrite Hg in Hf.
    destruct Hf as [-> ->]. rewrite Hd2, Hc. done.
Qed.

(** X26.  The delivery of a path calls subscribers of the bus only and hands
    each of them the path that was published.  If no call fails, the bus is
    after the delivery as it was before; and on a bus with an empty
    subscription map nobody is called. *)
Theorem publish_without_failure (s : pubSub) (p : Path) (e : env) :
  exists s' e',
    publish_event s p e = (Ret s', e') /\
    (forall c, c ∈ new_calls e e' -> c_path c = p /\ subscribed s (c_id c)) /\
    (failed (new_calls e e') = [] -> s' = s) /\
    (size (subMap s) = 0%nat -> s' = s /\ e' = e).
Proof.
  destruct (publish_event_returns s p e) as (new & e' & Heq & Hd & Hp & _ & Hs).
  eexists _, e'. split; [exact Heq|]. rewrite (new_calls_app _ _ _ Hd).
  split; [|split].
  - intros c Hc. split; [|by apply Hs]. rewrite Forall_forall in Hp. by apply Hp.
  - intros Hf. by rewrite (evicted_none _ Hf).
  - intros Hz. revert Heq. unfold publish_event.
    rewrite bool_decide_eq_true_2 by done. unfold ret. by intros [= <- <-].
Qed.

End Theorems.

Lemma Subscribe_fresh_id_witness :
  wf bus1 /\
  let s' := (Subscribe bus1 (mkPath (b "system/smtp") Default 0) accept).1 in
  let id := (Subscribe bus1 (mkPath (b "system/smtp") Default 0) accept).2.1 in
  ~ subscribed bus1 id /\
  (forall h, lookup_sub s' h id
             = if bool_decide (h = Hash32 (mkPath (b "system/smtp") Default 0))
               then Some accept else None) /\
  (forall h i, i <> id -> lookup_sub s' h i = lookup_sub bus1 h i) /\
  wf s'.
Proof.
  assert (Hwf : wf bus1) by (unfold bus1; apply Subscribe_wf, wf_new).
  split; [exact Hwf|].
  apply (Subscribe_fresh_id bus1 (mkPath (b "system/smtp") Default 0) accept Hwf).
  discriminate.
Defined.

Lemma Unsubscribe_removes_only_witness :
  wf bus2 /\
  (Unsubscribe bus2 1).2 = None /\
  ~ subscribed (Unsubscribe bus2 1).1 1 /\
  (forall h id, id <> 1 -> lookup_sub (Unsubscribe bus2 1).1 h id = lookup_sub bus2 h id) /\
  (~ subscribed bus2 1 -> (Unsubscribe bus2 1).1 = bus2).
Proof.
  assert (Hwf : wf bus2) by (unfold bus2, bus1; do 2 apply Subscribe_wf; apply wf_new).
  split; [exact Hwf|]. exact (Unsubscribe_removes_only bus2 1 Hwf).
Defined.

Lemma Subscribe_then_Unsubscribe_witness :
  wf bus1 /\ no_empty_bucket bus1 /\
  let s1 := (Subscribe bus1 (mkPath (b "system") Store 2) accept).1 in
  let id := (Subscribe bus1 (mkPath (b "system") Store 2) accept).2.1 in
  subMap (Unsubscribe s1 id).1 = subMap bus1 /\
  subAutoInc (Unsubscribe s1 id).1 = subAutoInc bus1 + 1 /\
  no_empty_bucket (Unsubscribe s1 id).1.
Proof.
  assert (Hwf : wf bus1) by (unfold bus1; apply Subscribe_wf, wf_new).
  assert (Hn : no_empty_bucket bus1).
  { unfold bus1. apply Subscribe_no_empty. intros h subs. cbn. by rewrite lookup_empty. }
  split; [exact Hwf|]. split; [exact Hn|].
  apply (Subscribe_then_Unsubscribe bus1 (mkPath (b "system") Store 2) accept Hwf Hn).
  discriminate.
Defined.

Lemma reachable_no_empty_bucket_witness :
  reachable bus2 /\
  no_empty_bucket bus2 /\
  (size (subMap bus2) = 0%nat <-> forall id, ~ subscribed bus2 id).
Proof.
  assert (Hr : reachable bus2).
  { unfold reachable, bus2, bus1, bus0.
    eapply rtc_l; [apply step_Subscribe|]. eapply rtc_l; [apply step_Subscribe|].
    apply rtc_refl. }
  split; [exact Hr|]. exact (reachable_no_empty_bucket bus2 Hr).
Defined.

Lemma sendMsg_returns_on_reachable_witness :
  reachable bus2 /\
  exists s' e',
    sendMsg bus2 smtp_host env0 = (Ret s', e') /\
    e' = (deliver bus2 env0).2 /\
    (in_flight bus2 = None -> e' = env0) /\
    if closed bus2 then s' = bus2 /\ e' = env0 else in_flight s' = Some smtp_host.
Proof.
  assert (Hr : reachable bus2).
  { unfold reachable, bus2, bus1, bus0.
    eapply rtc_l; [apply step_Subscribe|]. eapply rtc_l; [apply step_Subscribe|].
    apply rtc_refl. }
  split; [exact Hr|]. exact (sendMsg_returns_on_reachable bus2 smtp_host env0 Hr).
Defined.

End pubsub_extras.
